(** * VibeTunnel: log viewer, preference managers and session service

    A shallow embedding of
    - [web/src/client/components/log-viewer.ts] ([LogViewer.parseLogs]),
    - the terminal preferences manager ([TerminalPreferencesManager]),
    - the settings component ([Settings]),
    - the Swift [SessionService] wrapper,
    together with the session registry the service talks to.

    JavaScript strings are sequences of UTF-16 code units.  The embedding
    covers the code units below 256 (the Latin-1 range) and writes them as
    [ascii]; the character classes and case mapping below are the
    ECMAScript ones restricted to that range. *)

From Stdlib Require Import String Ascii List ZArith Lia QArith Qcanon.
From stdpp Require Import gmap strings list fin_maps pretty.

Set Warnings "-register-all".

Open Scope string_scope.
Open Scope list_scope.

(** ** JavaScript strings *)

Module Js.

Abbreviation jsstring := (list ascii).

(** A string literal of the source. *)
Definition lit (s : string) : jsstring := list_ascii_of_string s.

Definition code (c : ascii) : nat := nat_of_ascii c.

Definition LF : ascii := ascii_of_nat 10.
Definition CR : ascii := ascii_of_nat 13.

(** ECMAScript LineTerminator: LF, CR (U+2028 and U+2029 lie outside
    the range of code units covered here). *)
Definition isLineTerminator (c : ascii) : bool :=
  (code c =? 10)%nat || (code c =? 13)%nat.

(** ECMAScript WhiteSpace + LineTerminator, the set shared by [\s] and
    [String.prototype.trim]: TAB, LF, VT, FF, CR, SP, NBSP. *)
Definition isSpace (c : ascii) : bool :=
  ((9 <=? code c)%nat && (code c <=? 13)%nat)
  || (code c =? 32)%nat || (code c =? 160)%nat.

Definition notSpace (c : ascii) : bool := negb (isSpace c).

(** [.] without the [s] flag: anything but a line terminator. *)
Definition isDot (c : ascii) : bool := negb (isLineTerminator c).

(** The class [[^\]]]. *)
Definition notRBracket (c : ascii) : bool := negb (code c =? 93)%nat.

(** The longest prefix whose elements all satisfy [p], and what
    follows it. *)
Fixpoint takeWhile {A} (p : A -> bool) (s : list A) : list A :=
  match s with
  | c :: s' => if p c then c :: takeWhile p s' else []
  | [] => []
  end.

Fixpoint dropWhile {A} (p : A -> bool) (s : list A) : list A :=
  match s with
  | c :: s' => if p c then dropWhile p s' else s
  | [] => []
  end.

(** [s.trim()] *)
Definition trim (s : jsstring) : jsstring :=
  rev (dropWhile isSpace (rev (dropWhile isSpace s))).

(** Truthiness of a string: the empty string is the only falsy one. *)
Definition truthy (s : jsstring) : bool :=
  match s with [] => false | _ :: _ => true end.

(** [c.toLowerCase()] on one code unit: A-Z and the Latin-1 capitals
    U+00C0 to U+00DE (U+00D7, the multiplication sign, apart). *)
Definition lowerChar (c : ascii) : ascii :=
  let n := code c in
  if ((65 <=? n)%nat && (n <=? 90)%nat)
     || ((192 <=? n)%nat && (n <=? 222)%nat && negb (n =? 215)%nat)
  then ascii_of_nat (n + 32) else c.

Definition toLowerCase (s : jsstring) : jsstring := map lowerChar s.

(** The capital letters among the code units covered: A-Z, and U+00C0
    to U+00DE without U+00D7; their small letters lie 32 further. *)
Definition isUpper (c : ascii) : bool :=
  ((65 <=? code c)%nat && (code c <=? 90)%nat)
  || ((192 <=? code c)%nat && (code c <=? 222)%nat && negb (code c =? 215)%nat).

(** [b] is [a] in lower case: the small letter of a capital, any other
    character as it is. *)
Definition lowerOf (a b : ascii) : Prop :=
  if isUpper a then code b = (code a + 32)%nat else b = a.

(** [s.startsWith(p)] *)
Fixpoint startsWith (s p : jsstring) {struct p} : bool :=
  match p, s with
  | [], _ => true
  | _ :: _, [] => false
  | a :: p', b :: s' => if Ascii.eqb a b then startsWith s' p' else false
  end.

(** [s.substring(n)] for [0 <= n]: the suffix from index [n] (empty
    when [n] exceeds the length). *)
Definition substring (n : nat) (s : jsstring) : jsstring := drop n s.

(** [s.split('\n')] *)
Fixpoint split_lines (s : jsstring) : list jsstring :=
  match s with
  | [] => [[]]
  | c :: s' =>
      if (code c =? 10)%nat then [] :: split_lines s'
      else match split_lines s' with
           | l :: ls => (c :: l) :: ls
           | [] => [[c]]
           end
  end.

End Js.

(** ** Regular expressions

    The fragment of ECMAScript regular expressions used by the log
    viewer: a sequence of atoms between [^] and [$], each a literal
    character or a greedy repetition of a character class, possibly
    wrapped in a capture group.  The matcher is the backtracking one of
    the language: a greedy repetition first takes as many characters as
    it can and gives them back one at a time while the rest fails. *)

Module Regex.
Import Js.

Inductive atom :=
| Char (c : ascii)                 (* a literal character *)
| Plus (cls : ascii -> bool)       (* cls+ *)
| Star (cls : ascii -> bool).      (* cls* *)

Inductive item :=
| Group (a : atom)                 (* ( a ) *)
| Plain (a : atom).

Definition regex := list item.

(** [greedy cls k allow acc s]: [acc] has been consumed already,
    [allow] tells whether stopping now satisfies the quantifier's
    minimum, [k] is the rest of the pattern. *)
Fixpoint greedy {R} (cls : ascii -> bool)
    (k : jsstring -> jsstring -> option R)
    (allow : bool) (acc s : jsstring) : option R :=
  match s with
  | c :: s' =>
      if cls c then
        match greedy cls k true (acc ++ [c]) s' with
        | Some r => Some r
        | None => if allow then k acc s else None
        end
      else if allow then k acc s else None
  | [] => if allow then k acc [] else None
  end.

Definition matchAtom {R} (a : atom)
    (k : jsstring -> jsstring -> option R) (s : jsstring) : option R :=
  match a with
  | Char c =>
      match s with
      | c' :: s' => if Ascii.eqb c c' then k [c'] s' else None
      | [] => None
      end
  | Plus cls => greedy cls k false [] s
  | Star cls => greedy cls k true [] s
  end.

(** Matches [s] against [^ r $]; the result lists the captures in
    the order of their groups. *)
Fixpoint matchFrom (r : regex) (caps : list jsstring) (s : jsstring)
    : option (list jsstring) :=
  match r with
  | [] => match s with [] => Some caps | _ :: _ => None end
  | Group a :: r' => matchAtom a (fun m s' => matchFrom r' (caps ++ [m]) s') s
  | Plain a :: r' => matchAtom a (fun _ s' => matchFrom r' caps s') s
  end.

(** [s.match(/^r$/)]: the whole match followed by the groups. *)
Definition matchAnchored (r : regex) (s : jsstring) : option (list jsstring) :=
  match matchFrom r [] s with
  | Some caps => Some (s :: caps)
  | None => None
  end.

End Regex.

(** ** The log viewer *)

Module LogViewer.
Import Js Regex.

Record LogEntry := {
  timestamp : jsstring;
  level : jsstring;
  module : jsstring;
  message : jsstring;
  isClient : bool
}.

(** The pattern of [line.match]: start of input, a group of one or
    more non-space characters, one or more spaces, a second such group,
    one or more spaces, an opening bracket, a group of one or more
    characters other than the closing bracket, the closing bracket, one
    or more spaces, a group of any number of [.] characters, end of
    input. *)
Definition entryRegex : regex :=
  [ Group (Plus notSpace); Plain (Plus isSpace);
    Group (Plus notSpace); Plain (Plus isSpace);
    Plain (Char "["%char); Group (Plus notRBracket); Plain (Char "]"%char);
    Plain (Plus isSpace); Group (Star isDot) ].

Definition withMessage (e : LogEntry) (m : jsstring) : LogEntry :=
  {| timestamp := timestamp e; level := level e; module := module e;
     message := m; isClient := isClient e |}.

(** The entry built from a successful match
    [[, timestamp, level, module, message] = match]. *)
Definition entryOfMatch (m : list jsstring) : option LogEntry :=
  match m with
  | [_; timestamp; level; module; message] =>
      let isClient := startsWith module (lit "CLIENT:") in
      Some {| timestamp := timestamp;
              level := toLowerCase (trim level);
              module := if isClient then substring 7 module else module;
              message := message;
              isClient := isClient |}
  | _ => None
  end.

(** The entry for an unparseable line with no current log. *)
Definition unknownEntry (line : jsstring) : LogEntry :=
  {| timestamp := []; level := lit "log"; module := lit "unknown";
     message := line; isClient := false |}.

(** The loop state: [logs] and [currentLog]. *)
Definition state := (list LogEntry * option LogEntry)%type.

Definition push (logs : list LogEntry) (cur : option LogEntry) : list LogEntry :=
  match cur with
  | Some e => logs ++ [e]
  | None => logs
  end.

(** One iteration of [for (const line of lines)]. *)
Definition step (st : state) (line : jsstring) : state :=
  let '(logs, currentLog) := st in
  if negb (truthy (trim line)) then st
  else
    match matchAnchored entryRegex line with
    | Some m =>
        match entryOfMatch m with
        | Some e => (push logs currentLog, Some e)
        | None => st
        end
    | None =>
        match currentLog with
        | Some cur =>
            (logs, Some (withMessage cur (message cur ++ LF :: line)))
        | None => (logs ++ [unknownEntry line], None)
        end
    end.

Definition run (st : state) (lines : list jsstring) : state :=
  fold_left step lines st.

(** The loop over given lines, from the initial state, followed by
    the final push. *)
Definition parseLines (lines : list jsstring) : list LogEntry :=
  let '(logs, currentLog) := run ([], None) lines in
  push logs currentLog.

(** The final push, "don't forget the last log". *)
Definition finish (st : state) : list LogEntry := push (fst st) (snd st).

(** [parseLogs(text)]: the value assigned to [this.logs]. *)
Definition parseLogs (text : jsstring) : list LogEntry :=
  parseLines (split_lines text).

(** *** Vocabulary for the statements about [parseLogs] *)

(** A line the loop skips: [line.trim()] is empty. *)
Definition isBlank (line : jsstring) : bool := negb (truthy (trim line)).

(** A line that starts a new entry: not skipped, and matched by the
    pattern. *)
Definition startsEntry (line : jsstring) : bool :=
  negb (isBlank line) &&
  match matchAnchored entryRegex line with Some _ => true | None => false end.

Definition continues (line : jsstring) : bool := negb (startsEntry line).

(** What a run of lines that start no entry adds to the message of
    the current entry. *)
Fixpoint appended (lines : list jsstring) : jsstring :=
  match lines with
  | [] => []
  | l :: ls => if isBlank l then appended ls else LF :: l ++ appended ls
  end.

Definition allOf (p : ascii -> bool) (s : jsstring) : Prop :=
  Forall (fun c => p c = true) s.

(** A line reads "timestamp level [module] message": the timestamp
    and the level are runs of non-space characters, the module a run
    of characters other than the closing bracket, none of them empty;
    the separators [w1], [w2], [w3] are non-empty runs of spaces; the
    message has no line terminator and starts where the spaces after
    the bracket end. *)
Definition lineForm (line ts lvl md msg : jsstring) : Prop :=
  exists w1 w2 w3,
    line = ts ++ w1 ++ lvl ++ w2 ++ "["%char :: md ++ "]"%char :: w3 ++ msg
    /\ ts <> [] /\ allOf notSpace ts
    /\ w1 <> [] /\ allOf isSpace w1
    /\ lvl <> [] /\ allOf notSpace lvl
    /\ w2 <> [] /\ allOf isSpace w2
    /\ md <> [] /\ allOf notRBracket md
    /\ w3 <> [] /\ allOf isSpace w3
    /\ allOf isDot msg
    /\ takeWhile isSpace msg = [].

Definition guard {A} (b : bool) (k : option A) : option A :=
  if b then k else None.

(** The pattern read from left to right with no backtracking: every
    repetition takes its longest run.  [entryRegex_scan] below shows
    that the matcher computes just this. *)
Definition scanLine (s : jsstring) : option (list jsstring) :=
  let ts := takeWhile notSpace s in
  let s1 := dropWhile notSpace s in
  let s2 := dropWhile isSpace s1 in
  let lvl := takeWhile notSpace s2 in
  let s3 := dropWhile notSpace s2 in
  guard (truthy ts) (
  guard (truthy (takeWhile isSpace s1)) (
  guard (truthy lvl) (
  guard (truthy (takeWhile isSpace s3)) (
  match dropWhile isSpace s3 with
  | [] => None
  | c :: s5 =>
      guard (Ascii.eqb "["%char c) (
      let md := takeWhile notRBracket s5 in
      guard (truthy md) (
      match dropWhile notRBracket s5 with
      | [] => None
      | c' :: s7 =>
          guard (Ascii.eqb "]"%char c') (
          guard (truthy (takeWhile isSpace s7)
                 && forallb isDot (dropWhile isSpace s7))
            (Some [ts; lvl; md; dropWhile isSpace s7]))
      end))
  end)))).

End LogViewer.


(** ** JavaScript values

    Numbers are the IEEE doubles: the finite ones are rationals, and
    the code below only compares and selects them, so they are kept as
    canonical rationals, with the two infinities and NaN apart (the two
    zeros are one value here). *)

Module JsValue.

Inductive number :=
| NaN
| NegInf
| Fin (q : Qc)
| PosInf.

Definition ofZ (z : Z) : number := Fin (Q2Qc (inject_Z z)).

(** [a <= b] on numbers; false as soon as one side is NaN. *)
Definition leb (a b : number) : bool :=
  match a, b with
  | NaN, _ | _, NaN => false
  | NegInf, _ => true
  | _, PosInf => true
  | Fin p, Fin q => Qle_bool p q
  | Fin _, NegInf | PosInf, NegInf | PosInf, Fin _ => false
  end.

(** [Math.max(a, b)] *)
Definition Math_max (a b : number) : number :=
  match a, b with
  | NaN, _ | _, NaN => NaN
  | _, _ => if leb a b then b else a
  end.

(** [Math.min(a, b)] *)
Definition Math_min (a b : number) : number :=
  match a, b with
  | NaN, _ | _, NaN => NaN
  | _, _ => if leb a b then a else b
  end.

(** The values [JSON.parse] produces. *)
Inductive value :=
| VNull
| VBool (b : bool)
| VNum (n : number)
| VStr (s : string)
| VArr (l : list value)
| VObj (o : gmap string value).

(** A JavaScript object: its own enumerable properties. *)
Abbreviation object := (gmap string value).

Fixpoint indexed {A} (f : A -> value) (i : nat) (l : list A) : object :=
  match l with
  | [] => ∅
  | x :: l' => <[pretty i := f x]> (indexed f (S i) l')
  end.

Definition chars (s : string) : list ascii := list_ascii_of_string s.

(** The properties an object spread [...v] copies: those of an
    object, the indices of an array or of a string, none for null,
    booleans and numbers. *)
Definition spreadProps (v : value) : object :=
  match v with
  | VObj o => o
  | VArr l => indexed (fun x => x) 0 l
  | VStr s => indexed (fun c => VStr (String c EmptyString)) 0 (chars s)
  | VNull | VBool _ | VNum _ => ∅
  end.

(** [{ ...a, ...b }]: the properties of [b] win. *)
Definition spread (a b : object) : object := b ∪ a.

(** [{ ...o, [k]: v }] *)
Definition spreadSet (o : object) (k : string) (v : value) : object :=
  <[k := v]> o.

(** What [JSON.parse(JSON.stringify(v))] gives: a number that is not
    finite is written as null. *)
Fixpoint jsonImage (v : value) : value :=
  match v with
  | VNum (Fin q) => VNum (Fin q)
  | VNum _ => VNull
  | VArr l => VArr (map jsonImage l)
  | VObj o => VObj (jsonImage <$> o)
  | VNull | VBool _ | VStr _ => v
  end.

End JsValue.

(** ** localStorage

    One entry of [localStorage], seen through what the code does with
    it: [getItem], a truthiness test and [JSON.parse]. *)

Module Storage.
Import JsValue.

Inductive item :=
| Absent                 (* getItem returns null *)
| Blank                  (* the empty string *)
| Malformed              (* a non-empty string JSON.parse rejects *)
| Json (v : value).      (* a non-empty string that parses to v *)

(** [localStorage.setItem(key, JSON.stringify(v))]; [writable] is
    false when [setItem] throws (quota exceeded, storage disabled). *)
Definition setJson (writable : bool) (v : value) (old : item) : item :=
  if writable then Json (jsonImage v) else old.

End Storage.

(** ** The terminal preferences manager

    [TerminalPreferencesManager] is a class with a static [instance]
    slot, a private constructor and one mutable field, [preferences].
    Objects live in a heap and are handled through their references;
    the world also holds the [localStorage] entry of the preferences
    and the outcome of [detectMobile()].  The calls to [logger] only
    write to the console and are left out. *)

Module TerminalPreferencesManager.
Import JsValue.

Definition ref := nat.

(** The fields of one manager object. *)
Record manager := { preferences : object }.

Record world := {
  heap : gmap ref manager;
  instance : option ref;          (* the static slot *)
  stored : Storage.item;          (* localStorage[STORAGE_KEY_TERMINAL_PREFS] *)
  writable : bool;                (* whether setItem succeeds *)
  mobile : bool                   (* detectMobile() *)
}.

Definition COMMON_TERMINAL_WIDTHS : list Z := [0; 80; 100; 120; 132; 160]%Z.

Definition DEFAULT_PREFERENCES (mobile : bool) : object :=
  <["maxCols" := VNum (ofZ 0)]>
  (<["fontSize" := VNum (ofZ (if mobile then 12 else 14))]>
  (<["fitHorizontally" := VBool false]>
  (<["theme" := VStr "dracula"]> ∅))).

(** The fields of the [TerminalPreferences] interface. *)
Definition knownFields : list string :=
  ["maxCols"; "fontSize"; "fitHorizontally"; "theme"].

Definition loadPreferences (w : world) : object :=
  match stored w with
  | Storage.Json parsed =>
      (* merge with defaults to handle new properties *)
      spread (DEFAULT_PREFERENCES (mobile w)) (spreadProps parsed)
  | Storage.Malformed =>                         (* JSON.parse throws *)
      DEFAULT_PREFERENCES (mobile w)
  | Storage.Absent | Storage.Blank =>            (* saved is falsy *)
      DEFAULT_PREFERENCES (mobile w)
  end.

Definition setHeap (h : gmap ref manager) (w : world) : world :=
  {| heap := h; instance := instance w; stored := stored w;
     writable := writable w; mobile := mobile w |}.

Definition setStored (i : Storage.item) (w : world) : world :=
  {| heap := heap w; instance := instance w; stored := i;
     writable := writable w; mobile := mobile w |}.

Definition setInstance (r : ref) (w : world) : world :=
  {| heap := heap w; instance := Some r; stored := stored w;
     writable := writable w; mobile := mobile w |}.

(** [new TerminalPreferencesManager()]: a fresh object whose
    preferences are the loaded ones. *)
Definition construct (w : world) : ref * world :=
  let r := fresh (dom (heap w)) in
  (r, setHeap (<[r := {| preferences := loadPreferences w |}]> (heap w)) w).

Definition getInstance (w : world) : ref * world :=
  match instance w with
  | Some r => (r, w)
  | None => let '(r, w') := construct w in (r, setInstance r w')
  end.

Definition savePreferences (this : ref) (w : world) : world :=
  match heap w !! this with
  | Some m =>
      setStored (Storage.setJson (writable w) (VObj (preferences m)) (stored w)) w
  | None => w
  end.

(** [this.preferences = p], for a live object [this]. *)
Definition assign (this : ref) (p : object) (w : world) : world :=
  match heap w !! this with
  | Some _ => setHeap (<[this := {| preferences := p |}]> (heap w)) w
  | None => w
  end.

(** [this.preferences.k = v] *)
Definition assignField (this : ref) (k : string) (v : value) (w : world) : world :=
  match heap w !! this with
  | Some m => assign this (<[k := v]> (preferences m)) w
  | None => w
  end.

(** The static slot, when set, holds a live object. *)
Definition wellFormed (w : world) : Prop :=
  forall r, instance w = Some r -> is_Some (heap w !! r).

(** [this.preferences.k]; [None] is [undefined]. *)
Definition field (this : ref) (k : string) (w : world) : option value :=
  match heap w !! this with
  | Some m => preferences m !! k
  | None => None
  end.

Definition getMaxCols (this : ref) (w : world) : option value :=
  field this "maxCols" w.

Definition setMaxCols (this : ref) (maxCols : number) (w : world) : world :=
  savePreferences this
    (assignField this "maxCols" (VNum (Math_max (ofZ 0) maxCols)) w).

Definition getFontSize (this : ref) (w : world) : option value :=
  field this "fontSize" w.

Definition setFontSize (this : ref) (fontSize : number) (w : world) : world :=
  savePreferences this
    (assignField this "fontSize"
       (VNum (Math_max (ofZ 8) (Math_min (ofZ 32) fontSize))) w).

Definition getFitHorizontally (this : ref) (w : world) : option value :=
  field this "fitHorizontally" w.

Definition setFitHorizontally (this : ref) (fitHorizontally : bool) (w : world) : world :=
  savePreferences this
    (assignField this "fitHorizontally" (VBool fitHorizontally) w).

Definition getTheme (this : ref) (w : world) : option value :=
  field this "theme" w.

Definition setTheme (this : ref) (theme : string) (w : world) : world :=
  savePreferences this (assignField this "theme" (VStr theme) w).

Definition getPreferences (this : ref) (w : world) : option object :=
  preferences <$> heap w !! this.

Definition resetToDefaults (this : ref) (w : world) : world :=
  savePreferences this (assign this (DEFAULT_PREFERENCES (mobile w)) w).

(** The calls a client of the class can make. *)
Inductive call :=
| GetInstance
| SetMaxCols (this : ref) (maxCols : number)
| SetFontSize (this : ref) (fontSize : number)
| SetFitHorizontally (this : ref) (b : bool)
| SetTheme (this : ref) (theme : string)
| ResetToDefaults (this : ref).

Definition perform (c : call) (w : world) : world :=
  match c with
  | GetInstance => snd (getInstance w)
  | SetMaxCols this x => setMaxCols this x w
  | SetFontSize this x => setFontSize this x w
  | SetFitHorizontally this b => setFitHorizontally this b w
  | SetTheme this t => setTheme this t w
  | ResetToDefaults this => resetToDefaults this w
  end.

Definition performAll (cs : list call) (w : world) : world :=
  fold_left (fun w c => perform c w) cs w.

End TerminalPreferencesManager.

(** ** The settings component

    The state of the [vt-settings] element that the preference code
    reads and writes, and the part of its surroundings it talks to:
    the [localStorage] entry of the app preferences and the push
    notification service.  [NotificationPreferences] is declared in the
    push notification service; the component reads its keys
    [enabled] and the eight toggles below, all booleans. *)

Module Settings.
Import JsValue.

Inductive NotificationPermission := Default | Granted | Denied.

Record component := {
  visible : bool;
  notificationPreferences : gmap string bool;
  permission : NotificationPermission;
  subscription : bool;              (* this.subscription is not null *)
  isLoading : bool;
  testingNotification : bool;
  appPreferences : object
}.

Record surroundings := {
  stored : Storage.item;            (* localStorage[STORAGE_KEY] *)
  writable : bool;                  (* whether setItem succeeds *)
  savedPreferences : list (gmap string bool);
    (* the arguments of pushNotificationService.savePreferences, oldest first *)
  supported : bool;                 (* pushNotificationService.isSupported() *)
  iosSafari : bool;
  standalone : bool
}.

Definition DEFAULT_APP_PREFERENCES : object :=
  <["useDirectKeyboard" := VBool true]> (<["useBinaryMode" := VBool false]> ∅).

(** The fields of the [AppPreferences] interface. *)
Definition knownFields : list string := ["useDirectKeyboard"; "useBinaryMode"].

Definition setAppPreferences (p : object) (c : component) : component :=
  {| visible := visible c;
     notificationPreferences := notificationPreferences c;
     permission := permission c; subscription := subscription c;
     isLoading := isLoading c; testingNotification := testingNotification c;
     appPreferences := p |}.

Definition setNotificationPreferences (p : gmap string bool) (c : component) : component :=
  {| visible := visible c;
     notificationPreferences := p;
     permission := permission c; subscription := subscription c;
     isLoading := isLoading c; testingNotification := testingNotification c;
     appPreferences := appPreferences c |}.

(** The first statement of [loadAppPreferences], inside its [try]:
    the stored preferences, when there are some, replace the current
    ones; a parse error leaves them as they are.  (The rest of the
    method asks the server for its configuration and does not touch
    [appPreferences].) *)
Definition loadAppPreferences (e : surroundings) (c : component) : component :=
  match stored e with
  | Storage.Json parsed =>
      setAppPreferences (spread DEFAULT_APP_PREFERENCES (spreadProps parsed)) c
  | Storage.Malformed => c
  | Storage.Absent | Storage.Blank => c
  end.

Definition saveAppPreferences (c : component) (e : surroundings) : surroundings :=
  {| stored := Storage.setJson (writable e) (VObj (appPreferences c)) (stored e);
     writable := writable e; savedPreferences := savedPreferences e;
     supported := supported e; iosSafari := iosSafari e;
     standalone := standalone e |}.

Definition handleAppPreferenceChange (key : string) (v : value)
    (st : component * surroundings) : component * surroundings :=
  let c := setAppPreferences (spreadSet (appPreferences (fst st)) key v) (fst st) in
  (c, saveAppPreferences c (snd st)).

(** [pushNotificationService.savePreferences(p)] *)
Definition savePreferences (p : gmap string bool) (e : surroundings) : surroundings :=
  {| stored := stored e; writable := writable e;
     savedPreferences := savedPreferences e ++ [p];
     supported := supported e; iosSafari := iosSafari e;
     standalone := standalone e |}.

Definition handleNotificationPreferenceChange (key : string) (v : bool)
    (st : component * surroundings) : component * surroundings :=
  let p := <[key := v]> (notificationPreferences (fst st)) in
  (setNotificationPreferences p (fst st), savePreferences p (snd st)).

(** [this.notificationPreferences[key]] as a condition. *)
Definition pref (c : component) (key : string) : bool :=
  default false (notificationPreferences c !! key).

(** A switch drawn by [renderNotificationToggle]: its texts, its
    [aria-checked] state and its click handler, which reads the
    preferences of the component when the click happens and gives the
    arguments of [handleNotificationPreferenceChange]. *)
Record toggle := {
  key : string;
  label : string;
  description : string;
  checked : bool;
  onClick : component -> string * bool
}.

Definition renderNotificationToggle (c : component)
    (key label description : string) : toggle :=
  {| key := key; label := label; description := description;
     checked := pref c key;
     onClick := fun this => (key, negb (pref this key)) |}.

(** What [renderNotificationSettings] draws. *)
Inductive notificationView :=
| NotSupported (installHint : bool)
| Panel (mainToggle : bool)
        (details : option (list toggle * list toggle * bool)).
    (* the "Notification Types" group, the "Notification Behavior"
       group, and whether the test button is disabled *)

Definition isNotificationsEnabled (c : component) : bool := pref c "enabled".

Definition notificationTypes (c : component) : list toggle :=
  [ renderNotificationToggle c "sessionExit" "Session Exit"
      "When a session terminates or crashes (shows exit code)";
    renderNotificationToggle c "sessionStart" "Session Start"
      "When a new session starts (useful for shared terminals)";
    renderNotificationToggle c "commandError" "Session Errors"
      "When commands fail with non-zero exit codes";
    renderNotificationToggle c "commandCompletion" "Command Completion"
      "When commands taking >3 seconds finish (builds, tests, etc.)";
    renderNotificationToggle c "bell" "System Alerts"
      "Terminal bell (^G) from vim, IRC mentions, completion sounds";
    renderNotificationToggle c "claudeTurn" "Claude Turn"
      "When Claude AI finishes responding and awaits input" ].

Definition notificationBehavior (c : component) : list toggle :=
  [ renderNotificationToggle c "soundEnabled" "Sound"
      "Play a notification sound when alerts are triggered";
    renderNotificationToggle c "vibrationEnabled" "Vibration"
      "Vibrate device with notifications (mobile devices only)" ].

Definition isGranted (p : NotificationPermission) : bool :=
  match p with Granted => true | _ => false end.

Definition renderNotificationSettings (e : surroundings) (c : component)
    : notificationView :=
  let canTest := isGranted (permission c) && subscription c in
  if negb (supported e) then
    NotSupported (iosSafari e && negb (standalone e))
  else
    Panel (pref c "enabled")
      (if isNotificationsEnabled c then
         Some (notificationTypes c, notificationBehavior c,
               negb canTest || testingNotification c)
       else None).

(** Every switch the settings dialog draws for notifications. *)
Definition toggles (v : notificationView) : list toggle :=
  match v with
  | Panel _ (Some (types, behavior, _)) => types ++ behavior
  | _ => []
  end.

(** A click on a drawn switch. *)
Definition click (t : toggle) (st : component * surroundings)
    : component * surroundings :=
  handleNotificationPreferenceChange
    (fst (onClick t (fst st))) (snd (onClick t (fst st))) st.

End Settings.

(** ** The session service (Swift)

    An [async throws] function is a function of the server's state that
    returns either the thrown error or its value, with the new state. *)

Module SessionService.

Definition throws (E S A : Type) : Type := S -> (E + A) * S.

(** The calls of [APIClient] the service forwards to. *)
Record APIClient (E S Session SessionCreateData : Type) := {
  api_getSessions : throws E S (list Session);
  api_createSession : SessionCreateData -> throws E S string;
  api_killSession : string -> throws E S unit;
  api_cleanupSession : string -> throws E S unit;
  api_cleanupAllExitedSessions : throws E S (list string);
  api_killAllSessions : throws E S unit;
  api_sendInput : string -> string -> throws E S unit;
  api_resizeTerminal : string -> Z -> Z -> throws E S unit
}.

Arguments api_getSessions {E S Session SessionCreateData} _.
Arguments api_createSession {E S Session SessionCreateData} _ _.
Arguments api_killSession {E S Session SessionCreateData} _ _.
Arguments api_cleanupSession {E S Session SessionCreateData} _ _.
Arguments api_cleanupAllExitedSessions {E S Session SessionCreateData} _.
Arguments api_killAllSessions {E S Session SessionCreateData} _.
Arguments api_sendInput {E S Session SessionCreateData} _ _ _.
Arguments api_resizeTerminal {E S Session SessionCreateData} _ _ _ _.

(** The state a call of the service runs in: the server behind the
    API client and the lines written by [logger.error]. *)
Record world (S : Type) := { server : S; errors : list string }.

Arguments server {S} _.
Arguments errors {S} _.

Section Service.
Context {E S Session SessionCreateData : Type}.
Variable apiClient : APIClient E S Session SessionCreateData.
(** The text an error is interpolated as. *)
Variable describe : E -> string.

(** [try await call], with nothing around it. *)
Definition forward {A} (call : throws E S A) : throws E (world S) A :=
  fun w =>
    let '(r, s) := call (server w) in
    (r, {| server := s; errors := errors w |}).

Definition getSessions : throws E (world S) (list Session) :=
  forward (api_getSessions apiClient).

Definition createSession (data : SessionCreateData)
    : throws E (world S) string :=
  fun w =>
    match api_createSession apiClient data (server w) with
    | (inr id, s) => (inr id, {| server := s; errors := errors w |})
    | (inl error, s) =>
        (inl error,
         {| server := s;
            errors := errors w
                      ++ ["Failed to create session: " +:+ describe error] |})
    end.

Definition killSession (sessionId : string) : throws E (world S) unit :=
  forward (api_killSession apiClient sessionId).

Definition cleanupSession (sessionId : string) : throws E (world S) unit :=
  forward (api_cleanupSession apiClient sessionId).

Definition cleanupAllExitedSessions : throws E (world S) (list string) :=
  forward (api_cleanupAllExitedSessions apiClient).

Definition killAllSessions : throws E (world S) unit :=
  forward (api_killAllSessions apiClient).

Definition sendInput (sessionId text : string) : throws E (world S) unit :=
  forward (api_sendInput apiClient sessionId text).

Definition resizeTerminal (sessionId : string) (cols rows : Z)
    : throws E (world S) unit :=
  forward (api_resizeTerminal apiClient sessionId cols rows).

End Service.

End SessionService.

(** ** The session registry

    The registry the API client reaches on the server is not part of
    the sources at hand; its data and the two cleanup operations are
    taken from the specification (sections 3, 4.3 and 7). *)

Module Registry.

(** Modelled from the spec: the status of a session (section 3). *)
Inductive Status := Starting | Running | Exited.

(** Modelled from the spec: the error taxonomy of the control
    operations (section 7). *)
Inductive ControlError :=
| SpawnError
| ProcessNotRunning
| InvalidGeometry
| SessionIdConflict
| SessionStillRunning
| NotFound.

(** Modelled from the spec: the session record (section 3);
    [exitCode] is present iff the status is [Exited]. *)
Record Session := {
  id : string;
  command : list string;
  workingDirectory : string;
  spawnWindow : bool;
  createdAt : Z;
  status : Status;
  exitCode : option Z
}.

(** Modelled from the spec: the registry owns the set of sessions,
    at most one per id. *)
Abbreviation registry := (gmap string Session).

Definition isExited (s : Session) : bool :=
  match status s with Exited => true | _ => false end.

(** Modelled from the spec: [cleanup(id)] removes an Exited
    session's bookkeeping, fails with [SessionStillRunning] on a
    session that is not Exited, and with [NotFound] on an unknown
    id. *)
Definition cleanup (sessionId : string) (reg : registry)
    : (ControlError + unit) * registry :=
  match reg !! sessionId with
  | None => (inl NotFound, reg)
  | Some s =>
      if isExited s then (inr tt, delete sessionId reg)
      else (inl SessionStillRunning, reg)
  end.

(** Modelled from the spec: one step of [cleanupAllExited()], the
    cleanup of one Exited session; a session whose cleanup fails is
    skipped, one that is removed is recorded. *)
Definition visit (sessionId : string) (s : Session)
    (acc : list string * registry) : list string * registry :=
  if isExited s then
    match cleanup sessionId (snd acc) with
    | (inr _, reg') => (sessionId :: fst acc, reg')
    | (inl _, reg') => (fst acc, reg')
    end
  else acc.

(** Modelled from the spec: [cleanupAllExited()] goes through the
    sessions, cleans up each Exited one and returns the ids actually
    removed. *)
Definition cleanupAllExited (reg : registry)
    : (ControlError + list string) * registry :=
  let '(removed, reg') := map_fold visit ([], reg) reg in
  (inr removed, reg').

(** The API client of a server that keeps this registry; the calls
    other than the two cleanups are those of [rest]. *)
Definition client {SessionCreateData}
    (rest : SessionService.APIClient ControlError registry Session SessionCreateData)
    : SessionService.APIClient ControlError registry Session SessionCreateData :=
  {| SessionService.api_getSessions := SessionService.api_getSessions rest;
     SessionService.api_createSession := SessionService.api_createSession rest;
     SessionService.api_killSession := SessionService.api_killSession rest;
     SessionService.api_cleanupSession := cleanup;
     SessionService.api_cleanupAllExitedSessions := cleanupAllExited;
     SessionService.api_killAllSessions := SessionService.api_killAllSessions rest;
     SessionService.api_sendInput := SessionService.api_sendInput rest;
     SessionService.api_resizeTerminal := SessionService.api_resizeTerminal rest |}.

(** A session and a client to try the operations on. *)
Definition demoSession (st : Status) : Session :=
  {| id := "s1"; command := ["bash"]; workingDirectory := "/";
     spawnWindow := false; createdAt := 0; status := st;
     exitCode := match st with Exited => Some 0%Z | _ => None end |}.

Definition demoClient
    : SessionService.APIClient ControlError registry Session unit :=
  {| SessionService.api_getSessions := fun reg => (inr (map snd (map_to_list reg)), reg);
     SessionService.api_createSession := fun _ reg => (inl SpawnError, reg);
     SessionService.api_killSession := fun _ reg => (inr tt, reg);
     SessionService.api_cleanupSession := cleanup;
     SessionService.api_cleanupAllExitedSessions := cleanupAllExited;
     SessionService.api_killAllSessions := fun reg => (inr tt, reg);
     SessionService.api_sendInput := fun _ _ reg => (inr tt, reg);
     SessionService.api_resizeTerminal := fun _ _ _ reg => (inr tt, reg) |}.

End Registry.

(** ** The log viewer: state, filters and timestamps

    The reactive state of the [log-viewer] element and the methods
    that read and write it.  The network requests of [loadLogs] and
    [clearLogs] are seen through their outcomes. *)

Module LogViewerState.
Import Js Regex LogViewer.

Record viewer := {
  logs : list LogEntry;
  loading : bool;
  filter : jsstring;
  levelFilter : gset (list ascii);
  autoScroll : bool;
  logSize : jsstring;
  showClient : bool;
  showServer : bool
}.

(** The state of a new element. *)
Definition initial : viewer :=
  {| logs := []; loading := true; filter := [];
     levelFilter := {[ lit "error"; lit "warn"; lit "log"; lit "debug" ]};
     autoScroll := true; logSize := [];
     showClient := true; showServer := true |}.

(** The levels [render] draws a button for. *)
Definition levels : list jsstring :=
  [lit "error"; lit "warn"; lit "log"; lit "debug"].

Definition setLevelFilter (s : gset (list ascii)) (v : viewer) : viewer :=
  {| logs := logs v; loading := loading v; filter := filter v;
     levelFilter := s; autoScroll := autoScroll v; logSize := logSize v;
     showClient := showClient v; showServer := showServer v |}.

Definition toggleLevel (level : jsstring) (v : viewer) : viewer :=
  if decide (level ∈ levelFilter v)
  then setLevelFilter (levelFilter v ∖ {[ level ]}) v
  else setLevelFilter (levelFilter v ∪ {[ level ]}) v.

(** [s.includes(t)] *)
Fixpoint includes (s t : jsstring) : bool :=
  startsWith s t
  || match s with
     | [] => false
     | _ :: s' => includes s' t
     end.

(** The callback of [this.logs.filter] in [filteredLogs]. *)
Definition shown (v : viewer) (log : LogEntry) : bool :=
  if negb (bool_decide (level log ∈ levelFilter v)) then false
  else if negb (showClient v) && isClient log then false
  else if negb (showServer v) && negb (isClient log) then false
  else if truthy (filter v) then
    let searchTerm := toLowerCase (filter v) in
    includes (toLowerCase (module log)) searchTerm
    || includes (toLowerCase (message log)) searchTerm
  else true.

Definition filteredLogs (v : viewer) : list LogEntry :=
  List.filter (shown v) (logs v).

(** What the request for [/api/logs/info] gave: it threw, its
    response was not ok, or it carried [sizeHuman] (the empty string
    when the field is missing). *)
Inductive infoOutcome :=
| InfoThrows
| InfoNotOk
| InfoOk (sizeHuman : jsstring).

Definition setLogSize (s : jsstring) (v : viewer) : viewer :=
  {| logs := logs v; loading := loading v; filter := filter v;
     levelFilter := levelFilter v; autoScroll := autoScroll v; logSize := s;
     showClient := showClient v; showServer := showServer v |}.

Definition setLogs (l : list LogEntry) (v : viewer) : viewer :=
  {| logs := l; loading := loading v; filter := filter v;
     levelFilter := levelFilter v; autoScroll := autoScroll v;
     logSize := logSize v;
     showClient := showClient v; showServer := showServer v |}.

Definition setLoading (b : bool) (v : viewer) : viewer :=
  {| logs := logs v; loading := b; filter := filter v;
     levelFilter := levelFilter v; autoScroll := autoScroll v;
     logSize := logSize v;
     showClient := showClient v; showServer := showServer v |}.

(** [loadLogs()]; [raw] is the text of [/api/logs/raw], or [None] when
    that request fails.  Scrolling is left out. *)
Definition loadLogs (info : infoOutcome) (raw : option jsstring) (v : viewer)
    : viewer :=
  match info with
  | InfoThrows => setLoading false v
  | InfoNotOk | InfoOk _ =>
      let v1 := match info with
                | InfoOk sizeHuman =>
                    setLogSize (if truthy sizeHuman then sizeHuman else []) v
                | _ => v
                end in
      match raw with
      | Some text => setLoading false (setLogs (parseLogs text) v1)
      | None => setLoading false v1
      end
  end.

(** [clearLogs()]: [confirmed] is the answer to the confirmation,
    [ok] whether the DELETE request succeeded. *)
Definition clearLogs (confirmed ok : bool) (v : viewer) : viewer :=
  if negb confirmed then v
  else if ok then setLogSize (lit "0 Bytes") (setLogs [] v)
  else v.

(** What the user and the refresh timer do to the element. *)
Inductive action :=
| ClickLevel (i : nat)           (* the i-th level button *)
| ClickClient
| ClickServer
| ClickAutoScroll
| Input (text : jsstring)        (* typing in the search field *)
| Refresh (info : infoOutcome) (raw : option jsstring)
| Clear (confirmed ok : bool).

Definition act (a : action) (v : viewer) : viewer :=
  match a with
  | ClickLevel i =>
      match levels !! i with
      | Some level => toggleLevel level v
      | None => v
      end
  | ClickClient =>
      {| logs := logs v; loading := loading v; filter := filter v;
         levelFilter := levelFilter v; autoScroll := autoScroll v;
         logSize := logSize v;
         showClient := negb (showClient v); showServer := showServer v |}
  | ClickServer =>
      {| logs := logs v; loading := loading v; filter := filter v;
         levelFilter := levelFilter v; autoScroll := autoScroll v;
         logSize := logSize v;
         showClient := showClient v; showServer := negb (showServer v) |}
  | ClickAutoScroll =>
      {| logs := logs v; loading := loading v; filter := filter v;
         levelFilter := levelFilter v; autoScroll := negb (autoScroll v);
         logSize := logSize v;
         showClient := showClient v; showServer := showServer v |}
  | Input text =>
      {| logs := logs v; loading := loading v; filter := text;
         levelFilter := levelFilter v; autoScroll := autoScroll v;
         logSize := logSize v;
         showClient := showClient v; showServer := showServer v |}
  | Refresh info raw => loadLogs info raw v
  | Clear confirmed ok => clearLogs confirmed ok v
  end.

Definition actAll (l : list action) (v : viewer) : viewer :=
  fold_left (fun v a => act a v) l v.

(** The difference [a - b] of two time values, as the subtraction of
    doubles gives it.  Time values are integers of at most 8.64e15 in
    magnitude, which doubles hold exactly; their difference is below
    2^54 in magnitude.  Up to 2^53 the difference is exact; beyond, the
    doubles are the even integers, and an odd difference is rounded to
    its neighbour that is a multiple of 4 (round to nearest, ties to
    even). *)
Definition roundDouble (d : Z) : Z :=
  if (Z.abs d <=? 2 ^ 53)%Z then d
  else if Z.even d then d
  else if (d mod 4 =? 1)%Z then (d - 1)%Z
  else (d + 1)%Z.

(** [formatRelativeTime(timestamp)].  [date] is the time value of
    [new Date(timestamp)] in milliseconds, [None] for an invalid date;
    [now] is the time value of [new Date()]; [clock] is what
    [date.toLocaleTimeString] returns.  A difference with an invalid
    date is NaN, which no comparison accepts.  [diffMs] is the rounded
    difference of the two doubles.  [Math.floor(diffMs / 1000)] is the
    floor of the exact quotient: the quotient is below 2^44 in
    magnitude, where neighbouring doubles are less than 1/500 apart,
    and it is an integer or at least 1/1000 away from one; the two
    later divisions are on smaller integers still. *)
Definition formatRelativeTime (date : option Z) (now : Z) (clock : string)
    : string :=
  match date with
  | None => clock
  | Some t =>
      let diffMs := roundDouble (now - t) in
      let diffSec := (diffMs / 1000)%Z in
      let diffMin := (diffSec / 60)%Z in
      let diffHour := (diffMin / 60)%Z in
      if (diffSec <? 60)%Z then pretty diffSec +:+ "s ago"
      else if (diffMin <? 60)%Z then pretty diffMin +:+ "m ago"
      else if (diffHour <? 24)%Z then pretty diffHour +:+ "h ago"
      else clock
  end.

(** *** Vocabulary for the statements about the entries *)

(** The entry that [parseLogs] builds from an entry line, with [extra]
    added to its message by the lines that follow. *)
Definition entryOfLine (ts lvl md msg extra : jsstring) : LogEntry :=
  {| timestamp := ts;
     level := toLowerCase lvl;
     module := if startsWith md (lit "CLIENT:") then substring 7 md else md;
     message := msg ++ extra;
     isClient := startsWith md (lit "CLIENT:") |}.

Definition fromEntryLine (lines : list jsstring) (e : LogEntry) : Prop :=
  exists l ts lvl md msg extra,
    l ∈ lines /\ lineForm l ts lvl md msg
    /\ e = entryOfLine ts lvl md msg extra.

Definition fromUnparsedLine (lines : list jsstring) (e : LogEntry) : Prop :=
  exists l,
    l ∈ lines /\ isBlank l = false /\ matchAnchored entryRegex l = None
    /\ e = unknownEntry l.

End LogViewerState.

(** ** The settings component: its actions

    The handlers of the settings dialog that call the push notification
    service or write the app preferences.  A call of the service either
    returns or throws; what it does is given by [answers]. *)

Module SettingsActions.
Import JsValue Settings.

(** The events the component dispatches on itself. *)
Inductive event :=
| NotificationsDisabled
| NotificationsEnabled
| Error (detail : string)
| Success (detail : string).

(** What the push notification service does during one handler. *)
Record answers := {
  unsubscribeThrows : bool;
  requestPermissionAnswer : option NotificationPermission;  (* None: it throws *)
  subscribeAnswer : option bool;
    (* None: it throws; Some b: whether it returns a subscription *)
  savePreferencesThrows : bool;
  testNotificationThrows : bool
}.

Record page := {
  comp : component;
  env : surroundings;
  dispatched : list event;          (* on the component, oldest first *)
  windowEvents : list object
    (* the details of the app-preferences-changed events on window *)
}.

Definition setIsLoading (b : bool) (c : component) : component :=
  {| visible := visible c;
     notificationPreferences := notificationPreferences c;
     permission := permission c; subscription := subscription c;
     isLoading := b; testingNotification := testingNotification c;
     appPreferences := appPreferences c |}.

Definition setTestingNotification (b : bool) (c : component) : component :=
  {| visible := visible c;
     notificationPreferences := notificationPreferences c;
     permission := permission c; subscription := subscription c;
     isLoading := isLoading c; testingNotification := b;
     appPreferences := appPreferences c |}.

Definition withComp (c : component) (p : page) : page :=
  {| comp := c; env := env p; dispatched := dispatched p;
     windowEvents := windowEvents p |}.

Definition withEnv (e : surroundings) (p : page) : page :=
  {| comp := comp p; env := e; dispatched := dispatched p;
     windowEvents := windowEvents p |}.

Definition dispatch (ev : event) (p : page) : page :=
  {| comp := comp p; env := env p; dispatched := dispatched p ++ [ev];
     windowEvents := windowEvents p |}.

(** [this.notificationPreferences = { ...this.notificationPreferences,
    enabled: b }] followed by the call of [savePreferences] and, when
    that returns, by the event; the boolean tells whether the call
    threw. *)
Definition setEnabled (a : answers) (b : bool) (ev : event) (p : page)
    : page * bool :=
  let np := <["enabled" := b]> (notificationPreferences (comp p)) in
  let p1 := withComp (setNotificationPreferences np (comp p)) p in
  let p2 := withEnv (savePreferences np (env p1)) p1 in
  if savePreferencesThrows a then (p2, true)
  else (dispatch ev p2, false).

(** The [try] block of [handleToggleNotifications]. *)
Definition toggleBody (a : answers) (p : page) : page * bool :=
  if pref (comp p) "enabled" then
    (* disable notifications *)
    if unsubscribeThrows a then (p, true)
    else setEnabled a false NotificationsDisabled p
  else
    (* enable notifications *)
    match requestPermissionAnswer a with
    | None => (p, true)
    | Some Granted =>
        match subscribeAnswer a with
        | None => (p, true)
        | Some true => setEnabled a true NotificationsEnabled p
        | Some false =>
            (dispatch (Error "Failed to subscribe to notifications") p, false)
        end
    | Some Denied =>
        (dispatch (Error "Notifications permission denied") p, false)
    | Some Default =>
        (dispatch (Error "Notifications permission not granted") p, false)
    end.

(** [handleToggleNotifications()]: the page afterwards and whether the
    call threw. *)
Definition handleToggleNotifications (a : answers) (p : page) : page * bool :=
  if isLoading (comp p) then (p, false)
  else
    let '(p1, threw) := toggleBody a (withComp (setIsLoading true (comp p)) p) in
    (* finally *)
    (withComp (setIsLoading false (comp p1)) p1, threw).

(** [handleTestNotification()] *)
Definition handleTestNotification (a : answers) (p : page) : page * bool :=
  if testingNotification (comp p) then (p, false)
  else
    let p0 := withComp (setTestingNotification true (comp p)) p in
    let '(p1, threw) :=
      if testNotificationThrows a then (p0, true)
      else (dispatch (Success "Test notification sent") p0, false) in
    (* finally *)
    (withComp (setTestingNotification false (comp p1)) p1, threw).

(** The values [handleAppPreferenceChange] is given. *)
Inductive setting :=
| OfBoolean (b : bool)
| OfString (s : string).

Definition toValue (v : setting) : value :=
  match v with
  | OfBoolean b => VBool b
  | OfString s => VStr s
  end.

(** [saveAppPreferences()]: the preferences are stored and then
    announced on [window]; when storing throws, nothing is announced. *)
Definition saveAppPreferences (p : page) : page :=
  {| comp := comp p;
     env := Settings.saveAppPreferences (comp p) (env p);
     dispatched := dispatched p;
     windowEvents :=
       if writable (env p) then windowEvents p ++ [appPreferences (comp p)]
       else windowEvents p |}.

Definition handleAppPreferenceChange (key : string) (v : setting) (p : page)
    : page :=
  saveAppPreferences
    (withComp (setAppPreferences
                 (spreadSet (appPreferences (comp p)) key (toValue v)) (comp p)) p).

End SettingsActions.

(** ** The session service: sequences of calls *)

Module SessionCalls.
Import SessionService.

(** The calls the service offers. *)
Inductive request (SessionCreateData : Type) :=
| GetSessions
| CreateSession (data : SessionCreateData)
| KillSession (sessionId : string)
| CleanupSession (sessionId : string)
| CleanupAllExitedSessions
| KillAllSessions
| SendInput (sessionId text : string)
| ResizeTerminal (sessionId : string) (cols rows : Z).

Arguments GetSessions {SessionCreateData}.
Arguments CreateSession {SessionCreateData} _.
Arguments KillSession {SessionCreateData} _.
Arguments CleanupSession {SessionCreateData} _.
Arguments CleanupAllExitedSessions {SessionCreateData}.
Arguments KillAllSessions {SessionCreateData}.
Arguments SendInput {SessionCreateData} _ _.
Arguments ResizeTerminal {SessionCreateData} _ _ _.

Section Calls.
Context {E S Session SessionCreateData : Type}.
Variable apiClient : APIClient E S Session SessionCreateData.
Variable describe : E -> string.

(** The state after a call of the service. *)
Definition serve (r : request SessionCreateData) (w : world S) : world S :=
  match r with
  | GetSessions => (getSessions apiClient w).2
  | CreateSession data => (createSession apiClient describe data w).2
  | KillSession sessionId => (killSession apiClient sessionId w).2
  | CleanupSession sessionId => (cleanupSession apiClient sessionId w).2
  | CleanupAllExitedSessions => (cleanupAllExitedSessions apiClient w).2
  | KillAllSessions => (killAllSessions apiClient w).2
  | SendInput sessionId text => (sendInput apiClient sessionId text w).2
  | ResizeTerminal sessionId cols rows =>
      (resizeTerminal apiClient sessionId cols rows w).2
  end.

(** The server after the same call made on the API client itself. *)
Definition direct (r : request SessionCreateData) (s : S) : S :=
  match r with
  | GetSessions => (api_getSessions apiClient s).2
  | CreateSession data => (api_createSession apiClient data s).2
  | KillSession sessionId => (api_killSession apiClient sessionId s).2
  | CleanupSession sessionId => (api_cleanupSession apiClient sessionId s).2
  | CleanupAllExitedSessions => (api_cleanupAllExitedSessions apiClient s).2
  | KillAllSessions => (api_killAllSessions apiClient s).2
  | SendInput sessionId text => (api_sendInput apiClient sessionId text s).2
  | ResizeTerminal sessionId cols rows =>
      (api_resizeTerminal apiClient sessionId cols rows s).2
  end.

(** The line a call adds to the log: one for a session creation that
    the API client refuses, none otherwise. *)
Definition logged (r : request SessionCreateData) (s : S) : list string :=
  match r with
  | CreateSession data =>
      match (api_createSession apiClient data s).1 with
      | inl error => ["Failed to create session: " +:+ describe error]
      | inr _ => []
      end
  | _ => []
  end.

Fixpoint loggedAll (rs : list (request SessionCreateData)) (s : S) : list string :=
  match rs with
  | [] => []
  | r :: rs' => logged r s ++ loggedAll rs' (direct r s)
  end.

Definition serveAll (rs : list (request SessionCreateData)) (w : world S) : world S :=
  fold_left (fun w r => serve r w) rs w.

Definition directAll (rs : list (request SessionCreateData)) (s : S) : S :=
  fold_left (fun s r => direct r s) rs s.

End Calls.

End SessionCalls.

(** * Properties *)

(** ** Strings and the pattern matcher *)

Module JsFacts.
Import Js Regex.

Section While.
Context {A : Type} (p : A -> bool).

Lemma takeWhile_dropWhile (s : list A) :
  takeWhile p s ++ dropWhile p s = s.
Proof.
  induction s as [|c s IH]; simpl; [done|].
  destruct (p c); simpl; [by rewrite IH | done].
Qed.

Lemma takeWhile_all (s : list A) :
  Forall (fun c => p c = true) (takeWhile p s).
Proof.
  induction s as [|c s IH]; simpl; [constructor|].
  destruct (p c) eqn:Hc; by constructor.
Qed.

(** A run of [p] followed by something that does not start with [p]
    is split exactly there. *)
Lemma takeWhile_app (a b : list A) :
  Forall (fun c => p c = true) a -> takeWhile p b = [] ->
  takeWhile p (a ++ b) = a.
Proof.
  induction 1 as [|c a Hc _ IH]; intros Hb; simpl; [done|].
  by rewrite Hc, IH.
Qed.

Lemma dropWhile_app (a b : list A) :
  Forall (fun c => p c = true) a -> takeWhile p b = [] ->
  dropWhile p (a ++ b) = b.
Proof.
  induction 1 as [|c a Hc _ IH]; intros Hb; simpl.
  - destruct b as [|c b]; simpl in *; [done|].
    by destruct (p c).
  - by rewrite Hc, IH.
Qed.

Lemma takeWhile_nil_head (c : A) (s : list A) :
  p c = false -> takeWhile p (c :: s) = [].
Proof. intros H; simpl; by rewrite H. Qed.

Lemma dropWhile_nil_all (s : list A) :
  dropWhile p s = [] -> Forall (fun c => p c = true) s.
Proof.
  induction s as [|c s IH]; simpl; [constructor|].
  destruct (p c) eqn:Hc; [|done]. intros H. constructor; auto.
Qed.

Lemma dropWhile_all (s : list A) :
  Forall (fun c => p c = true) s -> dropWhile p s = [].
Proof. induction 1 as [|c s Hc _ IH]; simpl; [done|]. by rewrite Hc. Qed.

Lemma takeWhile_idem (s : list A) :
  takeWhile p (dropWhile p s) = [].
Proof.
  induction s as [|c s IH]; simpl; [done|].
  destruct (p c) eqn:Hc; [done|]. simpl. by rewrite Hc.
Qed.
End While.

(** *** Greedy repetition *)

Section Greedy.
Context {R : Type} (cls : ascii -> bool)
        (k : jsstring -> jsstring -> option R).

(** The longest run is tried first: if the rest of the pattern
    accepts it, that is the match. *)
Lemma greedy_longest (allow : bool) (acc s : jsstring) (x : R) :
  allow = true \/ takeWhile cls s <> [] ->
  k (acc ++ takeWhile cls s) (dropWhile cls s) = Some x ->
  greedy cls k allow acc s = Some x.
Proof.
  revert allow acc. induction s as [|c s IH]; intros allow acc Hok Hk; simpl in *.
  - destruct Hok as [->|?]; [|done]. by rewrite app_nil_r in Hk.
  - destruct (cls c) eqn:Hc.
    + rewrite (IH true (acc ++ [c])); [done|by left|].
      by rewrite <- app_assoc.
    + destruct Hok as [->|?]; [|done]. by rewrite app_nil_r in Hk.
Qed.

(** If the rest of the pattern rejects every way of cutting the
    run, the repetition fails. *)
Lemma greedy_none (allow : bool) (acc s : jsstring) :
  (forall a b, takeWhile cls s = a ++ b ->
               allow = true \/ a <> [] ->
               k (acc ++ a) (b ++ dropWhile cls s) = None) ->
  greedy cls k allow acc s = None.
Proof.
  revert allow acc. induction s as [|c s IH]; intros allow acc Hk; simpl in *.
  - destruct allow; [|done].
    specialize (Hk [] [] eq_refl (or_introl eq_refl)).
    by rewrite app_nil_r in Hk.
  - destruct (cls c) eqn:Hc.
    + rewrite (IH true (acc ++ [c])).
      * destruct allow; [|done].
        specialize (Hk [] (c :: takeWhile cls s) eq_refl (or_introl eq_refl)).
        rewrite app_nil_r in Hk. simpl in Hk.
        by rewrite takeWhile_dropWhile in Hk.
      * intros a b Hab _. rewrite <- app_assoc. simpl.
        apply (Hk (c :: a) b); [by rewrite Hab | by right].
    + destruct allow; [|done].
      specialize (Hk [] [] eq_refl (or_introl eq_refl)).
      by rewrite app_nil_r in Hk.
Qed.

(** When the rest of the pattern cannot start with a character of
    the class, the repetition takes the longest run or fails. *)
Lemma greedy_commit (allow : bool) (acc s : jsstring) :
  (forall acc' c s', cls c = true -> k acc' (c :: s') = None) ->
  greedy cls k allow acc s =
    if allow || truthy (takeWhile cls s)
    then k (acc ++ takeWhile cls s) (dropWhile cls s) else None.
Proof.
  intros Hk. revert allow acc.
  induction s as [|c s IH]; intros allow acc; simpl.
  - rewrite app_nil_r, orb_false_r. done.
  - destruct (cls c) eqn:Hc; simpl.
    + rewrite IH, orb_true_r. simpl. rewrite <- app_assoc. simpl.
      destruct (k (acc ++ c :: takeWhile cls s) (dropWhile cls s)); [done|].
      rewrite Hk by done. by destruct allow.
    + by rewrite app_nil_r, orb_false_r.
Qed.
End Greedy.

End JsFacts.

(** ** The log viewer *)

Module LogViewerFacts.
Import Js Regex LogViewer JsFacts.

Lemma greedy_ext {R} cls (k k' : jsstring -> jsstring -> option R) allow acc s :
  (forall a t, k a t = k' a t) ->
  greedy cls k allow acc s = greedy cls k' allow acc s.
Proof.
  intros Hk. revert allow acc.
  induction s as [|c s IH]; intros allow acc; simpl; rewrite ?Hk; [done|].
  by rewrite IH.
Qed.

Lemma forallb_takeWhile {A} (p : A -> bool) (s : list A) :
  forallb p s = true -> takeWhile p s = s /\ dropWhile p s = [].
Proof.
  induction s as [|c s IH]; simpl; [done|].
  destruct (p c); simpl; [|done]. intros H. destruct (IH H) as [-> ->]. done.
Qed.

Lemma forallb_dropWhile {A} (p : A -> bool) (s : list A) :
  forallb p s = false -> exists c t, dropWhile p s = c :: t.
Proof.
  induction s as [|c s IH]; simpl; [done|].
  destruct (p c); simpl; eauto.
Qed.

Lemma allOf_forallb p s : allOf p s <-> forallb p s = true.
Proof.
  unfold allOf. rewrite forallb_forall, Forall_forall.
  split; intros H x Hx; apply H; by apply list_elem_of_In.
Qed.

Lemma truthy_cons (s : jsstring) : truthy s = true <-> s <> [].
Proof. destruct s; simpl; split; done. Qed.

(** The last group, [.*] up to the end of the input. *)
Lemma match_message caps t :
  matchFrom [Group (Star isDot)] caps t =
    if forallb isDot t then Some (caps ++ [t]) else None.
Proof.
  simpl. rewrite greedy_commit by done. simpl.
  destruct (forallb isDot t) eqn:Hd.
  - by destruct (forallb_takeWhile _ _ Hd) as [-> ->].
  - by destruct (forallb_dropWhile _ _ Hd) as (c & t' & ->).
Qed.

(** The spaces after the bracket: the message starts after the
    longest run of them. *)
Lemma match_spaces_message caps t :
  matchFrom [Plain (Plus isSpace); Group (Star isDot)] caps t =
    guard (truthy (takeWhile isSpace t) && forallb isDot (dropWhile isSpace t))
          (Some (caps ++ [dropWhile isSpace t])).
Proof.
  change (matchFrom [Plain (Plus isSpace); Group (Star isDot)] caps t)
    with (greedy isSpace (fun _ s' => matchFrom [Group (Star isDot)] caps s')
                 false [] t).
  rewrite (greedy_ext _ _ (fun _ s' =>
             if forallb isDot s' then Some (caps ++ [s']) else None))
    by (intros; apply match_message).
  destruct (truthy (takeWhile isSpace t)) eqn:Hw; simpl.
  - destruct (forallb isDot (dropWhile isSpace t)) eqn:Hd; simpl.
    + apply greedy_longest; [right; by apply truthy_cons|by rewrite Hd].
    + apply greedy_none. intros a b _ _.
      rewrite forallb_app, Hd, andb_false_r. done.
  - apply greedy_none. intros a b Hab [?|Ha]; [done|].
    destruct (takeWhile isSpace t); [|done]. by destruct a.
Qed.

Lemma notSpace_isSpace c : notSpace c = true -> isSpace c = false.
Proof. unfold notSpace. by destruct (isSpace c). Qed.

Lemma isSpace_notSpace c : isSpace c = true -> notSpace c = false.
Proof. unfold notSpace. by intros ->. Qed.

Lemma isSpace_not_bracket c : isSpace c = true -> Ascii.eqb "["%char c = false.
Proof.
  destruct (Ascii.eqb_spec "["%char c) as [<-|]; [|done]. by vm_compute.
Qed.

Lemma notRBracket_eqb c : notRBracket c = true -> Ascii.eqb "]"%char c = false.
Proof.
  destruct (Ascii.eqb_spec "]"%char c) as [<-|]; [|done]. by vm_compute.
Qed.

(** The backtracking matcher and the left-to-right scan agree on the
    entry pattern. *)
Lemma entryRegex_scan s : matchFrom entryRegex [] s = scanLine s.
Proof.
  unfold entryRegex, scanLine, guard.
  cbn [matchFrom matchAtom].
  rewrite greedy_commit; cycle 1.
  { intros acc' c s' Hc. simpl. by rewrite (notSpace_isSpace _ Hc). }
  cbn [orb app]. destruct (truthy (takeWhile notSpace s)); [|done].
  rewrite greedy_commit; cycle 1.
  { intros acc' c s' Hc. simpl. by rewrite (isSpace_notSpace _ Hc). }
  cbn [orb app]. destruct (truthy (takeWhile isSpace _)); [|done].
  rewrite greedy_commit; cycle 1.
  { intros acc' c s' Hc. simpl. by rewrite (notSpace_isSpace _ Hc). }
  cbn [orb app]. destruct (truthy (takeWhile notSpace _)); [|done].
  rewrite greedy_commit; cycle 1.
  { intros acc' c s' Hc. by rewrite (isSpace_not_bracket _ Hc). }
  cbn [orb app]. destruct (truthy (takeWhile isSpace _)); [|done].
  destruct (dropWhile isSpace _) as [|c s5]; [done|].
  destruct (Ascii.eqb "["%char c); [|done].
  rewrite greedy_commit; cycle 1.
  { intros acc' c0 s' Hc. by rewrite (notRBracket_eqb _ Hc). }
  cbn [orb app]. destruct (truthy (takeWhile notRBracket s5)); [|done].
  destruct (dropWhile notRBracket s5) as [|c' s7]; [done|].
  destruct (Ascii.eqb "]"%char c'); [|done].
  rewrite (greedy_ext _ _ (fun _ s' =>
    matchFrom [Group (Star isDot)]
      [takeWhile notSpace s;
       takeWhile notSpace (dropWhile isSpace (dropWhile notSpace s));
       takeWhile notRBracket s5] s')) by done.
  exact (match_spaces_message
           [takeWhile notSpace s;
            takeWhile notSpace (dropWhile isSpace (dropWhile notSpace s));
            takeWhile notRBracket s5] s7).
Qed.

(** *** The scan and the form of a line *)

Lemma scan_form s m :
  scanLine s = Some m ->
  exists ts lvl md msg, m = [ts; lvl; md; msg] /\ lineForm s ts lvl md msg.
Proof.
  unfold scanLine, guard.
  pose proof (takeWhile_dropWhile notSpace s) as E1.
  pose proof (takeWhile_all notSpace s) as A1.
  set (ts := takeWhile notSpace s) in *.
  set (s1 := dropWhile notSpace s) in *.
  pose proof (takeWhile_dropWhile isSpace s1) as E2.
  pose proof (takeWhile_all isSpace s1) as A2.
  set (w1 := takeWhile isSpace s1) in *.
  set (s2 := dropWhile isSpace s1) in *.
  pose proof (takeWhile_dropWhile notSpace s2) as E3.
  pose proof (takeWhile_all notSpace s2) as A3.
  set (lvl := takeWhile notSpace s2) in *.
  set (s3 := dropWhile notSpace s2) in *.
  pose proof (takeWhile_dropWhile isSpace s3) as E4.
  pose proof (takeWhile_all isSpace s3) as A4.
  set (w2 := takeWhile isSpace s3) in *.
  destruct (truthy ts) eqn:T1; [|done].
  destruct (truthy w1) eqn:T2; [|done].
  destruct (truthy lvl) eqn:T3; [|done].
  destruct (truthy w2) eqn:T4; [|done].
  destruct (dropWhile isSpace s3) as [|c s5] eqn:E5; [done|].
  destruct (Ascii.eqb_spec "["%char c) as [<-|]; [|done].
  pose proof (takeWhile_dropWhile notRBracket s5) as E6.
  pose proof (takeWhile_all notRBracket s5) as A6.
  set (md := takeWhile notRBracket s5) in *.
  destruct (truthy md) eqn:T6; [|done].
  destruct (dropWhile notRBracket s5) as [|c' s7] eqn:E7; [done|].
  destruct (Ascii.eqb_spec "]"%char c') as [<-|]; [|done].
  pose proof (takeWhile_dropWhile isSpace s7) as E8.
  pose proof (takeWhile_all isSpace s7) as A8.
  pose proof (takeWhile_idem isSpace s7) as I8.
  set (w3 := takeWhile isSpace s7) in *.
  set (msg := dropWhile isSpace s7) in *.
  destruct (truthy w3) eqn:T8; [|done].
  destruct (forallb isDot msg) eqn:D8; [|done].
  simpl. intros [= <-].
  exists ts, lvl, md, msg. split; [done|].
  exists w1, w2, w3.
  rewrite E8, E6, E4, E3, E2, E1.
  rewrite !truthy_cons in *.
  repeat split; try done. by apply allOf_forallb.
Qed.

(** A non-empty run of [q] stops a run of [p] when the two classes
    exclude each other. *)
Lemma stop_app (p q : ascii -> bool) (w rest : jsstring) :
  w <> [] -> allOf q w -> (forall c, q c = true -> p c = false) ->
  takeWhile p (w ++ rest) = [].
Proof.
  intros Hw Hq Hpq. destruct w as [|c w]; [done|].
  inversion_clear Hq as [|? ? Hc _]. simpl. by rewrite (Hpq _ Hc).
Qed.

Lemma nonempty_truthy (s : jsstring) : s <> [] -> truthy s = true.
Proof. by destruct s. Qed.

Lemma form_scan s ts lvl md msg :
  lineForm s ts lvl md msg -> scanLine s = Some [ts; lvl; md; msg].
Proof.
  intros (w1 & w2 & w3 & -> & N1 & A1 & N2 & A2 & N3 & A3 & N4 & A4
          & N6 & A6 & N8 & A8 & D & I).
  unfold scanLine, guard.
  assert (S1 : takeWhile notSpace
             (w1 ++ lvl ++ w2 ++ "["%char :: md ++ "]"%char :: w3 ++ msg) = [])
    by (by apply (stop_app _ isSpace); [| |apply isSpace_notSpace]).
  rewrite (takeWhile_app _ _ _ A1 S1), (dropWhile_app _ _ _ A1 S1).
  assert (S2 : takeWhile isSpace
             (lvl ++ w2 ++ "["%char :: md ++ "]"%char :: w3 ++ msg) = [])
    by (by apply (stop_app _ notSpace); [| |apply notSpace_isSpace]).
  rewrite (takeWhile_app _ _ _ A2 S2), (dropWhile_app _ _ _ A2 S2).
  assert (S3 : takeWhile notSpace
             (w2 ++ "["%char :: md ++ "]"%char :: w3 ++ msg) = [])
    by (by apply (stop_app _ isSpace); [| |apply isSpace_notSpace]).
  rewrite (takeWhile_app _ _ _ A3 S3), (dropWhile_app _ _ _ A3 S3).
  assert (S4 : takeWhile isSpace ("["%char :: md ++ "]"%char :: w3 ++ msg) = [])
    by done.
  rewrite (takeWhile_app _ _ _ A4 S4), (dropWhile_app _ _ _ A4 S4).
  rewrite !nonempty_truthy by done.
  change (Ascii.eqb "["%char "["%char) with true. cbv iota.
  assert (S6 : takeWhile notRBracket ("]"%char :: w3 ++ msg) = []) by done.
  rewrite (takeWhile_app _ _ _ A6 S6), (dropWhile_app _ _ _ A6 S6).
  rewrite nonempty_truthy by done.
  change (Ascii.eqb "]"%char "]"%char) with true. cbv iota.
  rewrite (takeWhile_app _ _ _ A8 I), (dropWhile_app _ _ _ A8 I).
  rewrite nonempty_truthy by done.
  apply allOf_forallb in D. by rewrite D.
Qed.

(** [line.match(...)] succeeds exactly on the lines of the form
    "timestamp level [module] message", and its groups are the four
    parts. *)
Lemma match_iff_form line m :
  matchAnchored entryRegex line = Some m <->
  exists ts lvl md msg,
    m = [line; ts; lvl; md; msg] /\ lineForm line ts lvl md msg.
Proof.
  unfold matchAnchored. rewrite entryRegex_scan. split.
  - destruct (scanLine line) as [caps|] eqn:Hs; [|done]. intros [= <-].
    destruct (scan_form _ _ Hs) as (ts & lvl & md & msg & -> & Hf). eauto 10.
  - intros (ts & lvl & md & msg & -> & Hf). by rewrite (form_scan _ _ _ _ _ Hf).
Qed.

Lemma no_match_iff line :
  matchAnchored entryRegex line = None <->
  forall ts lvl md msg, ~ lineForm line ts lvl md msg.
Proof.
  split.
  - intros Hn ts lvl md msg Hf.
    assert (matchAnchored entryRegex line = Some [line; ts; lvl; md; msg])
      as Hm by (apply match_iff_form; eauto 10).
    congruence.
  - intros Hn. destruct (matchAnchored entryRegex line) as [m|] eqn:Hm; [|done].
    apply match_iff_form in Hm as (ts & lvl & md & msg & _ & Hf).
    by destruct (Hn _ _ _ _ Hf).
Qed.

(** *** Blank lines and [trim] *)

Lemma dropWhile_stop {A} (p : A -> bool) (s : list A) :
  takeWhile p s = [] -> dropWhile p s = s.
Proof. destruct s as [|c s]; simpl; [done|]. by destruct (p c). Qed.

Lemma dropWhile_head {A} (p : A -> bool) (s : list A) c t :
  dropWhile p s = c :: t -> p c = false.
Proof.
  induction s as [|d s IH]; simpl; [done|].
  destruct (p d) eqn:Hd; [done|]. by intros [= <- _].
Qed.

Lemma allOf_notSpace_stop (s : jsstring) :
  allOf notSpace s -> takeWhile isSpace s = [].
Proof.
  destruct 1 as [|c s Hc _]; simpl; [done|]. by rewrite (notSpace_isSpace _ Hc).
Qed.

(** [trim] leaves a string without spaces as it is. *)
Lemma trim_notSpace (s : jsstring) : allOf notSpace s -> trim s = s.
Proof.
  intros Hs. unfold trim.
  rewrite (dropWhile_stop _ s) by by apply allOf_notSpace_stop.
  rewrite dropWhile_stop; [apply rev_involutive|].
  apply allOf_notSpace_stop. unfold allOf. by apply Forall_rev.
Qed.

(** A line is skipped exactly when all its characters are spaces. *)
Lemma isBlank_spec (line : jsstring) : isBlank line = forallb isSpace line.
Proof.
  unfold isBlank, trim. destruct (forallb isSpace line) eqn:Hb.
  - by destruct (forallb_takeWhile _ _ Hb) as [_ ->].
  - destruct (forallb_dropWhile _ _ Hb) as (c & t & Hd). rewrite Hd.
    pose proof (dropWhile_head _ _ _ _ Hd) as Hc.
    destruct (dropWhile isSpace (rev (c :: t))) as [|d u] eqn:Hr.
    + apply dropWhile_nil_all in Hr. apply Forall_rev in Hr.
      rewrite rev_involutive in Hr. inversion Hr; congruence.
    + simpl. by destruct (rev u).
Qed.

Lemma form_not_blank line ts lvl md msg :
  lineForm line ts lvl md msg -> isBlank line = false.
Proof.
  intros (w1 & w2 & w3 & -> & N1 & A1 & _).
  rewrite isBlank_spec. destruct ts as [|c ts]; [done|].
  inversion_clear A1 as [|? ? Hc _]. simpl.
  by rewrite (notSpace_isSpace _ Hc).
Qed.

Lemma startsEntry_iff line :
  startsEntry line = true <-> exists ts lvl md msg, lineForm line ts lvl md msg.
Proof.
  unfold startsEntry. split.
  - intros [_ Hm]%andb_prop.
    destruct (matchAnchored entryRegex line) as [m|] eqn:E; [|done].
    apply match_iff_form in E as (ts & lvl & md & msg & _ & Hf). eauto.
  - intros (ts & lvl & md & msg & Hf).
    rewrite (form_not_blank _ _ _ _ _ Hf). simpl.
    assert (matchAnchored entryRegex line = Some [line; ts; lvl; md; msg])
      as -> by (apply match_iff_form; eauto 10). done.
Qed.

(** *** One iteration *)

Lemma step_blank st line : isBlank line = true -> step st line = st.
Proof. unfold isBlank, step. destruct st. by intros ->. Qed.

Lemma step_entry logs cur line ts lvl md msg :
  lineForm line ts lvl md msg ->
  step (logs, cur) line =
    (push logs cur,
     Some {| timestamp := ts;
             level := toLowerCase lvl;
             module := if startsWith md (lit "CLIENT:")
                       then substring 7 md else md;
             message := msg;
             isClient := startsWith md (lit "CLIENT:") |}).
Proof.
  intros Hf. unfold step.
  pose proof (form_not_blank _ _ _ _ _ Hf) as Hb. unfold isBlank in Hb.
  rewrite Hb.
  assert (matchAnchored entryRegex line = Some [line; ts; lvl; md; msg])
    as -> by (apply match_iff_form; eauto 10).
  destruct Hf as (w1 & w2 & w3 & _ & _ & _ & _ & _ & _ & A3 & _).
  cbn [entryOfMatch]. by rewrite (trim_notSpace _ A3).
Qed.

Lemma step_append logs cur line :
  isBlank line = false -> matchAnchored entryRegex line = None ->
  step (logs, Some cur) line =
    (logs, Some (withMessage cur (message cur ++ LF :: line))).
Proof.
  unfold isBlank, step. intros Hb ->.
  by destruct (truthy (trim line)).
Qed.

Lemma step_unknown logs line :
  isBlank line = false -> matchAnchored entryRegex line = None ->
  step (logs, None) line = (logs ++ [unknownEntry line], None).
Proof.
  unfold isBlank, step. intros Hb ->.
  by destruct (truthy (trim line)).
Qed.

Lemma continues_cases line :
  continues line = true ->
  isBlank line = true \/
  (isBlank line = false /\ matchAnchored entryRegex line = None).
Proof.
  unfold continues, startsEntry.
  destruct (isBlank line); [by left|right]. simpl in *.
  by destruct (matchAnchored entryRegex line).
Qed.

Lemma continues_intro line :
  matchAnchored entryRegex line = None -> continues line = true.
Proof.
  unfold continues, startsEntry. intros ->. by rewrite andb_false_r.
Qed.

(** *** The loop *)

Lemma parseLines_finish lines : parseLines lines = finish (run ([], None) lines).
Proof. unfold parseLines, finish. by destruct (run _ _). Qed.

Lemma run_app st a b : run st (a ++ b) = run (run st a) b.
Proof. apply fold_left_app. Qed.

Lemma push_app l0 logs cur : push (l0 ++ logs) cur = l0 ++ push logs cur.
Proof. destruct cur; simpl; [by rewrite app_assoc|done]. Qed.

(** The entries already pushed are never looked at again. *)
Lemma step_shift l0 logs cur line :
  step (l0 ++ logs, cur) line =
    (l0 ++ fst (step (logs, cur) line), snd (step (logs, cur) line)).
Proof.
  unfold step. destruct (negb (truthy (trim line))); [done|].
  destruct (matchAnchored entryRegex line) as [m|].
  - destruct (entryOfMatch m); [|done]. simpl. by rewrite push_app.
  - destruct cur; simpl; [done|]. by rewrite app_assoc.
Qed.

Lemma run_shift l0 lines : forall logs cur,
  run (l0 ++ logs, cur) lines =
    (l0 ++ fst (run (logs, cur) lines), snd (run (logs, cur) lines)).
Proof.
  induction lines as [|l lines IH]; intros logs cur; [done|].
  unfold run in *. cbn [fold_left].
  rewrite step_shift. destruct (step (logs, cur) l) as [logs' cur'].
  apply IH.
Qed.

Lemma finish_shift logs cur lines :
  finish (run (logs, cur) lines) = logs ++ finish (run ([], cur) lines).
Proof.
  rewrite <- (app_nil_r logs) at 1. rewrite run_shift.
  unfold finish. simpl. apply push_app.
Qed.

Lemma withMessage_same e : withMessage e (message e ++ []) = e.
Proof. destruct e. unfold withMessage. simpl. by rewrite app_nil_r. Qed.

(** From a current entry on: the lines that start no entry extend
    its message, the next entry line closes it. *)
Lemma finish_current lines : forall e,
  finish (run ([], Some e) lines) =
    withMessage e (message e ++ appended (takeWhile continues lines))
    :: parseLines (dropWhile continues lines).
Proof.
  induction lines as [|l lines IH]; intros e.
  - simpl. by rewrite withMessage_same.
  - cbn [run fold_left takeWhile dropWhile].
    destruct (continues l) eqn:Hc.
    + destruct (continues_cases _ Hc) as [Hb|[Hb Hm]].
      * rewrite (step_blank _ _ Hb). fold (run ([], Some e) lines).
        rewrite IH. cbn [appended]. by rewrite Hb.
      * rewrite (step_append _ _ _ Hb Hm).
        fold (run ([], Some (withMessage e (message e ++ LF :: l))) lines).
        rewrite IH. cbn [appended]. rewrite Hb.
        unfold withMessage. simpl. by rewrite <- app_assoc.
    + apply negb_false_iff in Hc.
      apply startsEntry_iff in Hc as (ts & lvl & md & msg & Hf).
      rewrite parseLines_finish. cbn [run fold_left].
      rewrite !(step_entry _ _ _ _ _ _ _ Hf). cbn [push app].
      rewrite withMessage_same.
      match goal with |- finish (fold_left step lines (_, ?b)) = _ =>
        exact (finish_shift [e] b lines)
      end.
Qed.

(** The decomposition behind the statements on entry lines. *)
Lemma parseLines_entry pre line post ts lvl md msg :
  lineForm line ts lvl md msg ->
  parseLines (pre ++ line :: post) =
    parseLines pre
    ++ {| timestamp := ts;
          level := toLowerCase lvl;
          module := if startsWith md (lit "CLIENT:") then substring 7 md else md;
          message := msg ++ appended (takeWhile continues post);
          isClient := startsWith md (lit "CLIENT:") |}
    :: parseLines (dropWhile continues post).
Proof.
  intros Hf. rewrite (parseLines_finish (pre ++ _)), run_app.
  rewrite (parseLines_finish pre).
  destruct (run ([], None) pre) as [logs cur]. cbn [run fold_left].
  rewrite (step_entry _ _ _ _ _ _ _ Hf). fold (run (push logs cur, Some
    {| timestamp := ts; level := toLowerCase lvl;
       module := if startsWith md (lit "CLIENT:") then substring 7 md else md;
       message := msg; isClient := startsWith md (lit "CLIENT:") |}) post).
  rewrite finish_shift, finish_current. done.
Qed.

(** *** The pattern on a few lines *)

Example entry_line_matches :
  matchAnchored entryRegex (lit "12:00 WARN [CLIENT:ui] slow   start") =
    Some [lit "12:00 WARN [CLIENT:ui] slow   start";
          lit "12:00"; lit "WARN"; lit "CLIENT:ui"; lit "slow   start"].
Proof. reflexivity. Qed.

(** The spaces after the bracket are needed, the message is not. *)
Example entry_line_empty_message :
  matchAnchored entryRegex (lit "12:00 WARN [srv] ") =
    Some [lit "12:00 WARN [srv] "; lit "12:00"; lit "WARN"; lit "srv"; []]
  /\ matchAnchored entryRegex (lit "12:00 WARN [srv]") = None.
Proof. split; reflexivity. Qed.

(** A carriage return in the message (a line of a CRLF file) keeps the
    pattern from matching: [.] stops at it and [$] wants the end. *)
Example entry_line_carriage_return :
  matchAnchored entryRegex (lit "12:00 WARN [srv] slow" ++ [CR]) = None.
Proof. reflexivity. Qed.

Example parseLogs_sample :
  parseLogs (lit "booting" ++ LF :: lit "12:00 ERROR [CLIENT:ui] boom"
             ++ LF :: lit "  at render" ++ LF :: lit "   "
             ++ LF :: lit "12:01 log [srv] ok") =
    [ {| timestamp := []; level := lit "log"; module := lit "unknown";
         message := lit "booting"; isClient := false |};
      {| timestamp := lit "12:00"; level := lit "error"; module := lit "ui";
         message := lit "boom" ++ LF :: lit "  at render"; isClient := true |};
      {| timestamp := lit "12:01"; level := lit "log"; module := lit "srv";
         message := lit "ok"; isClient := false |} ].
Proof. reflexivity. Qed.

Lemma startsWith_spec (s p : jsstring) :
  startsWith s p = true <-> exists rest, s = p ++ rest.
Proof.
  revert s. induction p as [|a p IH]; intros s; simpl.
  - split; [by exists s|done].
  - destruct s as [|b s]; [split; [done|by intros [? ?]]|].
    destruct (Ascii.eqb_spec a b) as [<-|Hne].
    + rewrite IH. split; intros [rest H]; exists rest; congruence.
    + split; [done|]. intros [rest [= ? _]]. done.
Qed.

Lemma takeWhile_app_all {A} (p : A -> bool) (a b : list A) :
  Forall (fun x => p x = true) a ->
  takeWhile p (a ++ b) = a ++ takeWhile p b
  /\ dropWhile p (a ++ b) = dropWhile p b.
Proof.
  induction 1 as [|x a Hx _ [IH1 IH2]]; simpl; [done|].
  by rewrite Hx, IH1, IH2.
Qed.

Lemma appended_app a b : appended (a ++ b) = appended a ++ appended b.
Proof.
  induction a as [|l a IH]; simpl; [done|].
  destruct (isBlank l); [done|]. simpl. by rewrite IH, <- app_assoc.
Qed.

(** Lines that start no entry leave the pushed entries alone and
    extend the current one. *)
Lemma run_continuations conts : forall logs e,
  Forall (fun l => continues l = true) conts ->
  run (logs, Some e) conts =
    (logs, Some (withMessage e (message e ++ appended conts))).
Proof.
  induction conts as [|l conts IH]; intros logs e Hc.
  - simpl. by rewrite withMessage_same.
  - inversion_clear Hc as [|? ? Hl Hc']. unfold run in *. cbn [fold_left appended].
    destruct (continues_cases _ Hl) as [Hb|[Hb Hm]]; rewrite Hb.
    + rewrite (step_blank _ _ Hb). by apply IH.
    + rewrite (step_append _ _ _ Hb Hm), (IH _ _ Hc').
      unfold withMessage. simpl. by rewrite <- app_assoc.
Qed.

(** With no current entry, lines that start no entry leave none. *)
Lemma run_no_current pre : forall logs,
  Forall (fun l => continues l = true) pre ->
  snd (run (logs, None) pre) = None.
Proof.
  induction pre as [|l pre IH]; intros logs Hc; [done|].
  inversion_clear Hc as [|? ? Hl Hc']. unfold run in *. cbn [fold_left].
  destruct (continues_cases _ Hl) as [Hb|[Hb Hm]].
  - rewrite (step_blank _ _ Hb). by apply IH.
  - rewrite (step_unknown _ _ Hb Hm). by apply IH.
Qed.

(** The last entry line of a run of lines that has one. *)
Lemma last_entry_line (pre : list jsstring) :
  Exists (fun l => startsEntry l = true) pre ->
  exists p1 m conts,
    pre = p1 ++ m :: conts /\ startsEntry m = true
    /\ Forall (fun l => continues l = true) conts.
Proof.
  induction pre as [|x pre IH] using rev_ind; [by inversion 1|].
  intros Hex. destruct (startsEntry x) eqn:Hx.
  - exists pre, x, []. by repeat split.
  - apply Exists_app in Hex as [Hex|Hex].
    + destruct (IH Hex) as (p1 & m & conts & -> & Hm & Hc).
      exists p1, m, (conts ++ [x]). rewrite <- app_assoc. repeat split; [done|].
      apply Forall_app. split; [done|]. constructor; [|done].
      unfold continues. by rewrite Hx.
    + inversion Hex as [? ? Hx'|? ? Hx']; [congruence|inversion Hx'].
Qed.

(** *** The claims on [parseLogs] *)

(** What [toLowerCase] does, character by character: a capital
    becomes its small letter, any other character stays, and no
    capital is left. *)
Lemma lowerChar_lowerOf (c : ascii) : lowerOf c (lowerChar c).
Proof. destruct c as [[] [] [] [] [] [] [] []]; vm_compute; reflexivity. Qed.

Lemma lowerChar_not_upper (c : ascii) : isUpper (lowerChar c) = false.
Proof. destruct c as [[] [] [] [] [] [] [] []]; reflexivity. Qed.

Lemma toLowerCase_lowerOf (s : jsstring) : Forall2 lowerOf s (toLowerCase s).
Proof.
  induction s as [|c s IH]; simpl; constructor; [apply lowerChar_lowerOf|done].
Qed.

Lemma toLowerCase_not_upper (s : jsstring) :
  Forall (fun c => isUpper c = false) (toLowerCase s).
Proof.
  induction s as [|c s IH]; simpl; constructor; [apply lowerChar_not_upper|done].
Qed.

(** C1. Every line of the form "timestamp level [module] message"
    of the input yields one entry of the result, after the entries of
    the lines before it and before those of the next entry line on.
    Its timestamp is the line's; its level is the line's in lower
    case: character by character the small letter of a capital and any
    other character as it is, so that no capital is left; its message
    is the line's (followed by what the lines up to the next entry line
    add).  When the module of the line starts with "CLIENT:", the entry
    is marked as a client entry and its module is what follows that
    prefix; otherwise the entry is a server entry and keeps the module
    as it is. *)
Theorem parseLogs_entry_line (text : jsstring) pre line post ts lvl md msg :
  split_lines text = pre ++ line :: post ->
  lineForm line ts lvl md msg ->
  exists e,
    parseLogs text =
      parseLines pre ++ e :: parseLines (dropWhile continues post)
    /\ timestamp e = ts
    /\ level e = toLowerCase lvl
    /\ Forall2 lowerOf lvl (level e)
    /\ Forall (fun c => isUpper c = false) (level e)
    /\ message e = msg ++ appended (takeWhile continues post)
    /\ ((exists name, md = lit "CLIENT:" ++ name
                      /\ module e = name /\ isClient e = true)
        \/ ((forall name, md <> lit "CLIENT:" ++ name)
            /\ module e = md /\ isClient e = false)).
Proof.
  intros Hsplit Hf. unfold parseLogs. rewrite Hsplit.
  rewrite (parseLines_entry _ _ _ _ _ _ _ Hf).
  eexists. split; [reflexivity|]. cbn [timestamp level message module isClient].
  split; [done|]. split; [done|].
  split; [apply toLowerCase_lowerOf|]. split; [apply toLowerCase_not_upper|].
  split; [done|].
  destruct (startsWith md (lit "CLIENT:")) eqn:Hc.
  - left. apply startsWith_spec in Hc as [name ->]. by exists name.
  - right. repeat split. intros name ->.
    assert (startsWith (lit "CLIENT:" ++ name) (lit "CLIENT:") = true)
      by (apply startsWith_spec; eauto).
    congruence.
Qed.

Lemma parseLogs_entry_line_witness :
  exists e,
    parseLogs (lit "12:00 WARN [CLIENT:ui] slow" ++ LF :: lit "  at render") = [e]
    /\ timestamp e = lit "12:00"
    /\ level e = lit "warn"
    /\ message e = lit "slow" ++ LF :: lit "  at render"
    /\ module e = lit "ui"
    /\ isClient e = true.
Proof.
  assert (Hf : lineForm (lit "12:00 WARN [CLIENT:ui] slow")
                 (lit "12:00") (lit "WARN") (lit "CLIENT:ui") (lit "slow")).
  { exists (lit " "), (lit " "), (lit " ").
    repeat split; try discriminate; repeat constructor. }
  destruct (parseLogs_entry_line
              (lit "12:00 WARN [CLIENT:ui] slow" ++ LF :: lit "  at render")
              [] (lit "12:00 WARN [CLIENT:ui] slow") [lit "  at render"]
              _ _ _ _ eq_refl Hf)
    as (e & Hp & Hts & Hlvl & _ & _ & Hmsg & Hmod).
  exists e. split; [exact Hp|]. split; [exact Hts|]. split; [exact Hlvl|].
  split; [exact Hmsg|].
  destruct Hmod as [(name & Hn & Hm & Hc)|(Hno & _)].
  - injection Hn as <-. by split.
  - destruct (Hno (lit "ui")). reflexivity.
Defined.

(** C2, as stated, fails on a line of spaces: the line " " is not
    empty, is not matched by the pattern and follows an entry, and yet
    the loop skips it instead of adding it to the message. *)
Lemma spaces_line_not_merged :
  let first := lit "12:00 log [srv] up" in
  let line := lit " " in
  line <> []
  /\ matchAnchored entryRegex line = None
  /\ exists cur,
       run ([], None) [first] = ([], Some cur)
       /\ run ([], None) [first; line] = ([], Some cur)
       /\ withMessage cur (message cur ++ LF :: line) <> cur
       /\ parseLogs (first ++ LF :: line) = [cur]
       /\ message cur = lit "up".
Proof.
  cbv zeta. split; [done|]. split; [by vm_compute|].
  eexists. split; [by vm_compute|]. split; [by vm_compute|].
  split; [by vm_compute|]. split; by vm_compute.
Qed.

(** C2, amended. A line that has a character other than a space, is
    not matched by the pattern and comes after an entry line is added
    to the current entry, the one of the last entry line before it:
    the loop appends a newline and the line to its message and pushes
    nothing.  In the result, that entry carries the line in its
    message, between what the lines before and after it add, and the
    result has as many entries as it has without the line. *)
Theorem continuation_line_merged (text : jsstring) pre line post :
  split_lines text = pre ++ line :: post ->
  isBlank line = false ->
  matchAnchored entryRegex line = None ->
  Exists (fun l => startsEntry l = true) pre ->
  exists logs cur p1 m conts e,
    run ([], None) pre = (logs, Some cur)
    /\ run ([], None) (pre ++ [line]) =
         (logs, Some (withMessage cur (message cur ++ LF :: line)))
    /\ pre = p1 ++ m :: conts
    /\ startsEntry m = true
    /\ Forall (fun l => continues l = true) conts
    /\ parseLines (pre ++ post) =
         parseLines p1
         ++ withMessage e (message e ++ appended conts
                           ++ appended (takeWhile continues post))
         :: parseLines (dropWhile continues post)
    /\ parseLogs text =
         parseLines p1
         ++ withMessage e (message e ++ appended conts ++ LF :: line
                           ++ appended (takeWhile continues post))
         :: parseLines (dropWhile continues post)
    /\ length (parseLogs text) = length (parseLines (pre ++ post)).
Proof.
  intros Hsplit Hb Hm Hex.
  destruct (last_entry_line _ Hex) as (p1 & m & conts & -> & Hs & Hc).
  pose proof Hs as Hs'.
  apply startsEntry_iff in Hs' as (ts & lvl & md & msg & Hf).
  pose proof (continues_intro _ Hm) as Hl.
  set (e := {| timestamp := ts; level := toLowerCase lvl;
               module := if startsWith md (lit "CLIENT:")
                         then substring 7 md else md;
               message := msg;
               isClient := startsWith md (lit "CLIENT:") |}).
  assert (Hpre : run ([], None) (p1 ++ m :: conts) =
                 (push (fst (run ([], None) p1)) (snd (run ([], None) p1)),
                  Some (withMessage e (message e ++ appended conts)))).
  { rewrite run_app. destruct (run ([], None) p1) as [l0 c0].
    unfold run at 1. cbn [fold_left].
    rewrite (step_entry _ _ _ _ _ _ _ Hf). fold e.
    apply (run_continuations conts _ e Hc). }
  assert (Hout : forall rest,
    Forall (fun l => continues l = true) rest -> forall post',
    parseLines ((p1 ++ m :: conts) ++ rest ++ post') =
      parseLines p1
      ++ withMessage e (message e ++ appended conts ++ appended rest
                        ++ appended (takeWhile continues post'))
      :: parseLines (dropWhile continues post')).
  { intros rest Hr post'. rewrite <- app_assoc. cbn [app].
    rewrite (parseLines_entry _ _ _ _ _ _ _ Hf).
    assert (Hcr : Forall (fun l => continues l = true) (conts ++ rest))
      by (apply Forall_app; by split).
    rewrite app_assoc.
    destruct (takeWhile_app_all continues _ post' Hcr) as [-> ->].
    rewrite !appended_app, <- !app_assoc. done. }
  exists (push (fst (run ([], None) p1)) (snd (run ([], None) p1))).
  exists (withMessage e (message e ++ appended conts)), p1, m, conts, e.
  assert (H1 : parseLines ((p1 ++ m :: conts) ++ post) =
               parseLines p1
               ++ withMessage e (message e ++ appended conts
                                 ++ appended (takeWhile continues post))
               :: parseLines (dropWhile continues post))
    by (apply (Hout []); constructor).
  assert (H2 : parseLogs text =
               parseLines p1
               ++ withMessage e (message e ++ appended conts ++ LF :: line
                                 ++ appended (takeWhile continues post))
               :: parseLines (dropWhile continues post)).
  { unfold parseLogs. rewrite Hsplit.
    change (line :: post) with ([line] ++ post).
    rewrite (Hout [line]) by (by constructor).
    cbn [appended]. rewrite Hb, app_nil_r. done. }
  split; [done|]. split.
  { rewrite run_app, Hpre. unfold run. cbn [fold_left].
    by rewrite (step_append _ _ _ Hb Hm). }
  do 5 (split; [done|]).
  rewrite H1, H2, !length_app. done.
Qed.

Lemma continuation_line_merged_witness :
  exists logs cur p1 m conts e,
    run ([], None) [lit "12:00 log [srv] up"] = (logs, Some cur)
    /\ run ([], None) ([lit "12:00 log [srv] up"] ++ [lit "  at main"]) =
         (logs, Some (withMessage cur (message cur ++ LF :: lit "  at main")))
    /\ [lit "12:00 log [srv] up"] = p1 ++ m :: conts
    /\ startsEntry m = true
    /\ Forall (fun l => continues l = true) conts
    /\ parseLines ([lit "12:00 log [srv] up"] ++ []) =
         parseLines p1
         ++ withMessage e (message e ++ appended conts
                           ++ appended (takeWhile continues []))
         :: parseLines (dropWhile continues [])
    /\ parseLogs (lit "12:00 log [srv] up" ++ LF :: lit "  at main") =
         parseLines p1
         ++ withMessage e (message e ++ appended conts ++ LF :: lit "  at main"
                           ++ appended (takeWhile continues []))
         :: parseLines (dropWhile continues [])
    /\ length (parseLogs (lit "12:00 log [srv] up" ++ LF :: lit "  at main")) =
       length (parseLines ([lit "12:00 log [srv] up"] ++ [])).
Proof.
  apply (continuation_line_merged _ [lit "12:00 log [srv] up"]
           (lit "  at main") []).
  - reflexivity.
  - reflexivity.
  - vm_compute. reflexivity.
  - constructor. vm_compute. reflexivity.
Defined.

(** C8, as stated, fails on a line of spaces: the line " " is not
    empty, is not matched by the pattern and has no entry before it,
    and it is dropped. *)
Lemma spaces_line_dropped :
  let line := lit " " in
  line <> []
  /\ matchAnchored entryRegex line = None
  /\ run ([], None) [line] = ([], None)
  /\ parseLogs line = [].
Proof. cbv zeta. repeat split; by vm_compute. Qed.

(** C8, amended. A line that has a character other than a space, is
    not matched by the pattern and has no entry line before it is
    never dropped: it becomes an entry of its own, with an empty
    timestamp, the level "log", the module "unknown", the line as its
    message, marked as a server entry; it comes after the entries of
    the lines before it and before those of the lines after it. *)
Theorem unparseable_line_kept (text : jsstring) pre line post :
  split_lines text = pre ++ line :: post ->
  isBlank line = false ->
  matchAnchored entryRegex line = None ->
  Forall (fun l => continues l = true) pre ->
  parseLogs text =
    parseLines pre
    ++ {| timestamp := []; level := lit "log"; module := lit "unknown";
          message := line; isClient := false |}
    :: parseLines post.
Proof.
  intros Hsplit Hb Hm Hpre. unfold parseLogs. rewrite Hsplit.
  rewrite (parseLines_finish (pre ++ _)), run_app, (parseLines_finish pre).
  pose proof (run_no_current pre [] Hpre) as Hn.
  destruct (run ([], None) pre) as [logs cur]. simpl in Hn. subst cur.
  unfold run at 1. cbn [fold_left]. rewrite (step_unknown _ _ Hb Hm).
  fold (run (logs ++ [unknownEntry line], None) post).
  rewrite finish_shift, <- parseLines_finish, <- app_assoc. done.
Qed.

Lemma unparseable_line_kept_witness :
  parseLogs (lit "starting up" ++ LF :: lit "12:00 log [srv] up") =
    parseLines []
    ++ {| timestamp := []; level := lit "log"; module := lit "unknown";
          message := lit "starting up"; isClient := false |}
    :: parseLines [lit "12:00 log [srv] up"].
Proof.
  apply (unparseable_line_kept _ [] (lit "starting up")
           [lit "12:00 log [srv] up"]).
  - reflexivity.
  - reflexivity.
  - vm_compute. reflexivity.
  - constructor.
Defined.

End LogViewerFacts.

(** ** Numbers *)

Module NumberFacts.
Import JsValue.

Lemma leb_8_32 (q : Qc) :
  Qle_bool (Q2Qc (inject_Z 32)) q = true ->
  Qle_bool (Q2Qc (inject_Z 8)) q = true.
Proof.
  rewrite !Qle_bool_iff. intros H.
  apply Qle_trans with (y := Q2Qc (inject_Z 32)); [|done].
  by vm_compute.
Qed.

(** Clamping from below first or from above first gives the same
    number, NaN included. *)
Lemma clamp_8_32 (x : number) :
  Math_max (ofZ 8) (Math_min (ofZ 32) x) = Math_min (ofZ 32) (Math_max (ofZ 8) x).
Proof.
  destruct x as [| |q|]; try reflexivity.
  unfold Math_max, Math_min, ofZ, leb.
  destruct (Qle_bool (Q2Qc (inject_Z 32)) q) eqn:H32.
  - rewrite (leb_8_32 _ H32), ?H32. reflexivity.
  - destruct (Qle_bool (Q2Qc (inject_Z 8)) q) eqn:H8;
      rewrite ?H8, ?H32; reflexivity.
Qed.

Example Math_max_NaN : Math_max (ofZ 0) NaN = NaN.
Proof. reflexivity. Qed.

Example clamp_samples :
  Math_max (ofZ 8) (Math_min (ofZ 32) (ofZ 100)) = ofZ 32
  /\ Math_max (ofZ 8) (Math_min (ofZ 32) (ofZ 3)) = ofZ 8
  /\ Math_max (ofZ 8) (Math_min (ofZ 32) (Fin (Q2Qc (25 # 2)))) = Fin (Q2Qc (25 # 2))
  /\ Math_max (ofZ 8) (Math_min (ofZ 32) NegInf) = ofZ 8.
Proof. repeat split; reflexivity. Qed.

(** On numbers other than NaN, [Math.max] is the larger of the two
    and [Math.min] the smaller. *)
Lemma leb_total (a b : number) :
  a <> NaN -> b <> NaN -> leb a b = true \/ leb b a = true.
Proof.
  destruct a as [| |p|], b as [| |q|]; simpl; intros; try done; auto.
  rewrite !Qle_bool_iff.
  destruct (Qlt_le_dec p q) as [Hlt|Hle]; [left; by apply Qlt_le_weak|by right].
Qed.

Lemma leb_refl (a : number) : a <> NaN -> leb a a = true.
Proof.
  destruct a as [| |p|]; simpl; intros; try done.
  apply Qle_bool_iff, Qle_refl.
Qed.

Lemma Math_max_upper (a b : number) :
  a <> NaN -> b <> NaN ->
  leb a (Math_max a b) = true /\ leb b (Math_max a b) = true
  /\ (Math_max a b = a \/ Math_max a b = b).
Proof.
  intros Ha Hb. destruct (leb a b) eqn:Hab.
  - assert (Math_max a b = b) as ->
      by (unfold Math_max; rewrite Hab; by destruct a, b).
    auto using leb_refl.
  - assert (Math_max a b = a) as ->
      by (unfold Math_max; rewrite Hab; by destruct a, b).
    destruct (leb_total a b Ha Hb); [congruence|]. auto using leb_refl.
Qed.

Lemma Math_min_lower (a b : number) :
  a <> NaN -> b <> NaN ->
  leb (Math_min a b) a = true /\ leb (Math_min a b) b = true
  /\ (Math_min a b = a \/ Math_min a b = b).
Proof.
  intros Ha Hb. destruct (leb a b) eqn:Hab.
  - assert (Math_min a b = a) as ->
      by (unfold Math_min; rewrite Hab; by destruct a, b).
    auto using leb_refl.
  - assert (Math_min a b = b) as ->
      by (unfold Math_min; rewrite Hab; by destruct a, b).
    destruct (leb_total a b Ha Hb); [congruence|]. auto using leb_refl.
Qed.

Lemma leb_Qcle (p q : Qc) : Qle_bool p q = true <-> (p <= q)%Qc.
Proof. apply Qle_bool_iff. Qed.

Lemma leb_antisym (a b : number) : leb a b = true -> leb b a = true -> a = b.
Proof.
  destruct a as [| |p|], b as [| |q|]; simpl; try done.
  rewrite !leb_Qcle. intros H1 H2. f_equal. by apply Qcle_antisym.
Qed.

Lemma leb_trans (a b c : number) :
  leb a b = true -> leb b c = true -> leb a c = true.
Proof.
  destruct a as [| |p|], b as [| |q|], c as [| |r|]; simpl; try done.
  rewrite !leb_Qcle. apply Qcle_trans.
Qed.

(** [Math.max] and [Math.min] on two numbers in order. *)
Lemma Math_max_r (a b : number) : leb a b = true -> Math_max a b = b.
Proof. intros H. unfold Math_max. rewrite H. by destruct a, b. Qed.

Lemma Math_max_l (a b : number) : leb b a = true -> Math_max a b = a.
Proof.
  intros H. destruct (leb a b) eqn:Hab.
  - rewrite (Math_max_r _ _ Hab). by apply leb_antisym.
  - unfold Math_max. rewrite Hab. by destruct a, b.
Qed.

Lemma Math_min_l (a b : number) : leb a b = true -> Math_min a b = a.
Proof. intros H. unfold Math_min. rewrite H. by destruct a, b. Qed.

Lemma Math_min_r (a b : number) : leb b a = true -> Math_min a b = b.
Proof.
  intros H. destruct (leb a b) eqn:Hab.
  - rewrite (Math_min_l _ _ Hab). by apply leb_antisym.
  - unfold Math_min. rewrite Hab. by destruct a, b.
Qed.

(** The value [setMaxCols] keeps, through the order: 0 for a number
    that is at most 0, the number itself from 0 on, NaN for NaN. *)
Lemma max0_spec (x : number) :
  (x = NaN -> Math_max (ofZ 0) x = NaN)
  /\ (leb x (ofZ 0) = true -> Math_max (ofZ 0) x = ofZ 0)
  /\ (leb (ofZ 0) x = true -> Math_max (ofZ 0) x = x).
Proof.
  split; [by intros ->|]. split; intros H.
  - by apply Math_max_l.
  - by apply Math_max_r.
Qed.

(** The value [setFontSize] keeps, through the order: 8 for a number
    that is at most 8, 32 for one that is at least 32, the number
    itself in between, NaN for NaN. *)
Lemma clamp_spec (x : number) :
  (x = NaN -> Math_max (ofZ 8) (Math_min (ofZ 32) x) = NaN)
  /\ (leb x (ofZ 8) = true -> Math_max (ofZ 8) (Math_min (ofZ 32) x) = ofZ 8)
  /\ (leb (ofZ 8) x = true -> leb x (ofZ 32) = true ->
      Math_max (ofZ 8) (Math_min (ofZ 32) x) = x)
  /\ (leb (ofZ 32) x = true -> Math_max (ofZ 8) (Math_min (ofZ 32) x) = ofZ 32).
Proof.
  assert (H832 : leb (ofZ 8) (ofZ 32) = true) by reflexivity.
  split; [by intros ->|]. split; [|split].
  - intros H. rewrite (Math_min_r (ofZ 32) x) by (by eapply leb_trans).
    by apply Math_max_l.
  - intros H8 H32. rewrite (Math_min_r (ofZ 32) x) by done.
    by apply Math_max_r.
  - intros H. rewrite (Math_min_l (ofZ 32) x) by done. reflexivity.
Qed.

End NumberFacts.

(** ** Stored preferences *)

Module PreferencesFacts.
Import JsValue.

(** [{ ...a, ...b }] read at one key. *)
Lemma lookup_spread (a b : gmap string value) (k : string) :
  spread a b !! k = match b !! k with Some v => Some v | None => a !! k end.
Proof.
  unfold spread. destruct (b !! k) as [v|] eqn:Hb.
  - by apply lookup_union_Some_l.
  - by apply lookup_union_r.
Qed.

(** C3, as stated, fails on both loaders: a field of the stored blob
    that the interface does not know is carried into the loaded
    preferences. *)
Lemma unknown_field_carried :
  let blob := VObj (<["maxCols" := VNum (ofZ 80)]>
                    (<["legacy" := VBool true]> ∅)) in
  let w := {| TerminalPreferencesManager.heap := ∅;
              TerminalPreferencesManager.instance := None;
              TerminalPreferencesManager.stored := Storage.Json blob;
              TerminalPreferencesManager.writable := true;
              TerminalPreferencesManager.mobile := false |} in
  let e := {| Settings.stored := Storage.Json blob;
              Settings.writable := true;
              Settings.savedPreferences := [];
              Settings.supported := true;
              Settings.iosSafari := false;
              Settings.standalone := false |} in
  ("legacy" ∉ TerminalPreferencesManager.knownFields)
  /\ TerminalPreferencesManager.loadPreferences w !! "legacy" = Some (VBool true)
  /\ ("legacy" ∉ Settings.knownFields)
  /\ forall c, Settings.appPreferences (Settings.loadAppPreferences e c) !! "legacy"
               = Some (VBool true).
Proof.
  cbv zeta. split; [|split; [|split]].
  - unfold TerminalPreferencesManager.knownFields.
    rewrite !elem_of_cons, elem_of_nil. intros [?|[?|[?|[?|?]]]]; done.
  - by vm_compute.
  - unfold Settings.knownFields.
    rewrite !elem_of_cons, elem_of_nil. intros [?|[?|?]]; done.
  - intros c. by vm_compute.
Qed.

(** C3, amended. When a stored blob is loaded, it is merged with the
    defaults field by field: a field the blob has takes the stored
    value, whether the interface knows the field or not, and a field
    the blob lacks takes its default.  Without a blob that parses,
    the terminal preferences are the defaults and the app preferences
    stay as they are. *)
Theorem stored_preferences_merge :
  (forall (w : TerminalPreferencesManager.world) (k : string),
     TerminalPreferencesManager.loadPreferences w !! k =
       match TerminalPreferencesManager.stored w with
       | Storage.Json parsed =>
           match spreadProps parsed !! k with
           | Some v => Some v
           | None =>
               TerminalPreferencesManager.DEFAULT_PREFERENCES
                 (TerminalPreferencesManager.mobile w) !! k
           end
       | _ =>
           TerminalPreferencesManager.DEFAULT_PREFERENCES
             (TerminalPreferencesManager.mobile w) !! k
       end)
  /\ (forall (e : Settings.surroundings) (c : Settings.component) (k : string),
       Settings.appPreferences (Settings.loadAppPreferences e c) !! k =
         match Settings.stored e with
         | Storage.Json parsed =>
             match spreadProps parsed !! k with
             | Some v => Some v
             | None => Settings.DEFAULT_APP_PREFERENCES !! k
             end
         | _ => Settings.appPreferences c !! k
         end).
Proof.
  split.
  - intros w k. unfold TerminalPreferencesManager.loadPreferences.
    destruct (TerminalPreferencesManager.stored w); try done.
    apply lookup_spread.
  - intros e c k. unfold Settings.loadAppPreferences.
    destruct (Settings.stored e); try done.
    cbn [Settings.setAppPreferences Settings.appPreferences].
    apply lookup_spread.
Qed.

End PreferencesFacts.

(** ** The terminal preferences manager *)

Module TerminalPreferencesFacts.
Import JsValue TerminalPreferencesManager NumberFacts.

Lemma field_savePreferences this that k w :
  field this k (savePreferences that w) = field this k w.
Proof.
  unfold savePreferences, field. by destruct (heap w !! that).
Qed.

Lemma field_assignField this k v k' w m :
  heap w !! this = Some m ->
  field this k' (assignField this k v w) =
    if decide (k = k') then Some v else field this k' w.
Proof.
  intros Hm. unfold assignField, assign, field. rewrite Hm. simpl.
  rewrite lookup_insert_eq. simpl. rewrite lookup_insert.
  by destruct (decide (k = k')).
Qed.

Lemma set_get_maxCols (w : world) (this : ref) (m : manager) (x : number) :
  heap w !! this = Some m ->
  getMaxCols this (setMaxCols this x w) = Some (VNum (Math_max (ofZ 0) x)).
Proof.
  intros Hm. unfold getMaxCols, setMaxCols.
  rewrite field_savePreferences, (field_assignField _ _ _ _ _ _ Hm).
  by rewrite decide_True.
Qed.

(** C9. On a live manager, [getMaxCols()] after [setMaxCols(x)]
    returns the larger of 0 and [x]: 0 when [x] is at most 0, [x] when
    it is at least 0; and [getFontSize()] after [setFontSize(x)]
    returns the smaller of 32 and the larger of 8 and [x]: 8 when [x]
    is at most 8, [x] between 8 and 32, 32 when [x] is at least 32.  A
    NaN is kept as NaN.  Each setter leaves every other preference
    field as it was. *)
Theorem setters_clamp (w : world) (this : ref) (m : manager) (x : number) :
  heap w !! this = Some m ->
  (exists y,
     getMaxCols this (setMaxCols this x w) = Some (VNum y)
     /\ y = Math_max (ofZ 0) x
     /\ (x = NaN -> y = NaN)
     /\ (leb x (ofZ 0) = true -> y = ofZ 0)
     /\ (leb (ofZ 0) x = true -> y = x))
  /\ (forall k, k <> "maxCols" ->
                field this k (setMaxCols this x w) = field this k w)
  /\ (exists y,
       getFontSize this (setFontSize this x w) = Some (VNum y)
       /\ y = Math_min (ofZ 32) (Math_max (ofZ 8) x)
       /\ (x = NaN -> y = NaN)
       /\ (leb x (ofZ 8) = true -> y = ofZ 8)
       /\ (leb (ofZ 8) x = true -> leb x (ofZ 32) = true -> y = x)
       /\ (leb (ofZ 32) x = true -> y = ofZ 32))
  /\ (forall k, k <> "fontSize" ->
                field this k (setFontSize this x w) = field this k w).
Proof.
  intros Hm. unfold getMaxCols, setMaxCols, getFontSize, setFontSize.
  rewrite !field_savePreferences.
  split; [|split; [|split]].
  - exists (Math_max (ofZ 0) x).
    rewrite (field_assignField _ _ _ _ _ _ Hm), decide_True by done.
    split; [done|]. split; [done|]. apply max0_spec.
  - intros k Hk. rewrite field_savePreferences.
    rewrite (field_assignField _ _ _ _ _ _ Hm). by rewrite decide_False.
  - exists (Math_max (ofZ 8) (Math_min (ofZ 32) x)).
    rewrite (field_assignField _ _ _ _ _ _ Hm), decide_True by done.
    split; [done|]. split; [apply clamp_8_32|]. apply clamp_spec.
  - intros k Hk. rewrite field_savePreferences.
    rewrite (field_assignField _ _ _ _ _ _ Hm). by rewrite decide_False.
Qed.

Lemma setters_clamp_witness :
  let w := {| heap := {[ 0 := {| preferences := DEFAULT_PREFERENCES false |} ]};
              instance := Some 0; stored := Storage.Absent;
              writable := true; mobile := false |} in
  heap w !! 0 = Some {| preferences := DEFAULT_PREFERENCES false |}
  /\ getMaxCols 0 (setMaxCols 0 (ofZ (-5)) w) = Some (VNum (ofZ 0))
  /\ getFontSize 0 (setFontSize 0 (ofZ (-5)) w) = Some (VNum (ofZ 8))
  /\ getMaxCols 0 (setMaxCols 0 (ofZ 100) w) = Some (VNum (ofZ 100))
  /\ getFontSize 0 (setFontSize 0 (ofZ 100) w) = Some (VNum (ofZ 32))
  /\ getFontSize 0 (setFontSize 0 (ofZ 20) w) = Some (VNum (ofZ 20))
  /\ (forall k, k <> "maxCols" ->
                field 0 k (setMaxCols 0 (ofZ (-5)) w) = field 0 k w)
  /\ (forall k, k <> "fontSize" ->
                field 0 k (setFontSize 0 (ofZ (-5)) w) = field 0 k w).
Proof.
  cbv zeta.
  set (w := {| heap := {[ 0 := {| preferences := DEFAULT_PREFERENCES false |} ]};
               instance := Some 0; stored := Storage.Absent;
               writable := true; mobile := false |}).
  assert (Hm : heap w !! 0 = Some {| preferences := DEFAULT_PREFERENCES false |})
    by reflexivity.
  split; [exact Hm|].
  destruct (setters_clamp w 0 _ (ofZ (-5)) Hm)
    as ((y1 & G1 & _ & _ & L1 & _) & F1 & (y2 & G2 & _ & _ & L2 & _) & F2).
  destruct (setters_clamp w 0 _ (ofZ 100) Hm)
    as ((y3 & G3 & _ & _ & _ & L3) & _ & (y4 & G4 & _ & _ & _ & _ & L4) & _).
  destruct (setters_clamp w 0 _ (ofZ 20) Hm)
    as (_ & _ & (y5 & G5 & _ & _ & _ & L5 & _) & _).
  rewrite G1, G2, G3, G4, G5.
  rewrite (L1 eq_refl), (L2 eq_refl), (L3 eq_refl), (L4 eq_refl),
    (L5 eq_refl eq_refl).
  do 5 (split; [reflexivity|]). split; [exact F1|exact F2].
Defined.

(** *** The single instance *)

Lemma heap_savePreferences this w : heap (savePreferences this w) = heap w.
Proof. unfold savePreferences. by destruct (heap w !! this). Qed.

Lemma instance_savePreferences this w :
  instance (savePreferences this w) = instance w.
Proof. unfold savePreferences. by destruct (heap w !! this). Qed.

Lemma instance_assign this p w : instance (assign this p w) = instance w.
Proof. unfold assign. by destruct (heap w !! this). Qed.

Lemma instance_assignField this k v w :
  instance (assignField this k v w) = instance w.
Proof.
  unfold assignField. destruct (heap w !! this); [|done]. apply instance_assign.
Qed.

Lemma live_assign this p w r :
  is_Some (heap w !! r) -> is_Some (heap (assign this p w) !! r).
Proof.
  unfold assign. destruct (heap w !! this) eqn:Ht; [|done]. simpl.
  intros Hr. rewrite lookup_insert. by destruct (decide (this = r)).
Qed.

Lemma live_assignField this k v w r :
  is_Some (heap w !! r) -> is_Some (heap (assignField this k v w) !! r).
Proof.
  unfold assignField. destruct (heap w !! this); [|done]. apply live_assign.
Qed.

(** A method call on any reference leaves the static slot alone and
    keeps live objects live. *)
Lemma perform_keeps (c : call) (w : world) (r : ref) :
  instance w = Some r -> is_Some (heap w !! r) ->
  instance (perform c w) = Some r /\ is_Some (heap (perform c w) !! r).
Proof.
  intros Hi Hl. destruct c; simpl.
  - unfold getInstance. by rewrite Hi.
  - unfold setMaxCols.
    rewrite instance_savePreferences, heap_savePreferences, instance_assignField.
    split; [done|by apply live_assignField].
  - unfold setFontSize.
    rewrite instance_savePreferences, heap_savePreferences, instance_assignField.
    split; [done|by apply live_assignField].
  - unfold setFitHorizontally.
    rewrite instance_savePreferences, heap_savePreferences, instance_assignField.
    split; [done|by apply live_assignField].
  - unfold setTheme.
    rewrite instance_savePreferences, heap_savePreferences, instance_assignField.
    split; [done|by apply live_assignField].
  - unfold resetToDefaults.
    rewrite instance_savePreferences, heap_savePreferences, instance_assign.
    split; [done|by apply live_assign].
Qed.

Lemma performAll_keeps (cs : list call) : forall (w : world) (r : ref),
  instance w = Some r -> is_Some (heap w !! r) ->
  instance (performAll cs w) = Some r /\ is_Some (heap (performAll cs w) !! r).
Proof.
  induction cs as [|c cs IH]; intros w r Hi Hl; [done|].
  unfold performAll in *. cbn [fold_left].
  destruct (perform_keeps c w r Hi Hl) as [Hi' Hl']. by apply IH.
Qed.

(** The first call fills the slot with a live object. *)
Lemma getInstance_live (w : world) :
  wellFormed w ->
  instance (getInstance w).2 = Some (getInstance w).1
  /\ is_Some (heap (getInstance w).2 !! (getInstance w).1).
Proof.
  intros Hwf. unfold getInstance. destruct (instance w) as [r|] eqn:Hi.
  - simpl. split; [done|]. by apply Hwf.
  - simpl. split; [done|]. by rewrite lookup_insert_eq.
Qed.

(** C10. Once [getInstance()] has returned, every later call, after
    any calls of the manager's methods through any references,
    returns that same reference and changes nothing; the preferences
    are therefore shared: what one caller sets through its reference,
    another reads through its own. *)
Theorem getInstance_single (w : world) (calls : list call) (x : number) :
  wellFormed w ->
  let r1 := (getInstance w).1 in
  let w2 := performAll calls (getInstance w).2 in
  getInstance w2 = (r1, w2)
  /\ getMaxCols (getInstance w2).1 (setMaxCols r1 x w2) =
       Some (VNum (Math_max (ofZ 0) x)).
Proof.
  intros Hwf r1 w2.
  destruct (getInstance_live w Hwf) as [Hi Hl].
  destruct (performAll_keeps calls _ _ Hi Hl) as [Hi2 Hl2].
  fold r1 in Hi2, Hl2. fold w2 in Hi2, Hl2.
  assert (Hg : getInstance w2 = (r1, w2))
    by (unfold getInstance; by rewrite Hi2).
  split; [done|]. rewrite Hg. simpl.
  destruct Hl2 as [m Hm].
  exact (set_get_maxCols w2 r1 m x Hm).
Qed.

Lemma getInstance_single_witness :
  let w := {| heap := ∅; instance := None; stored := Storage.Absent;
              writable := true; mobile := true |} in
  let calls := [SetFontSize 0 (ofZ 20); GetInstance] in
  let x := ofZ 100 in
  wellFormed w
  /\ getInstance (performAll calls (getInstance w).2) =
       ((getInstance w).1, performAll calls (getInstance w).2)
  /\ getMaxCols (getInstance (performAll calls (getInstance w).2)).1
       (setMaxCols (getInstance w).1 x (performAll calls (getInstance w).2)) =
       Some (VNum (Math_max (ofZ 0) x)).
Proof.
  cbv zeta.
  assert (Hwf : wellFormed
                  {| heap := ∅; instance := None; stored := Storage.Absent;
                     writable := true; mobile := true |})
    by (intros r Hr; discriminate Hr).
  split; [exact Hwf|].
  exact (getInstance_single _ [SetFontSize 0 (ofZ 20); GetInstance] (ofZ 100) Hwf).
Defined.

End TerminalPreferencesFacts.

(** ** The notification settings *)

Module SettingsFacts.
Import Settings.

(** C7. When notifications are supported and enabled, the settings
    draw the six per-kind switches sessionStart, sessionExit,
    commandError, commandCompletion, bell and claudeTurn and the two
    behavior switches soundEnabled and vibrationEnabled, and no
    other; otherwise they draw none.  Changing a preference sets that
    key to the new value and leaves every other key as it was, in the
    component and in what is handed to the notification service; a
    click on a drawn switch flips its own key and no other. *)
Theorem notification_toggles :
  (forall c, map key (notificationTypes c) ≡ₚ
               ["sessionStart"; "sessionExit"; "commandError";
                "commandCompletion"; "bell"; "claudeTurn"])
  /\ (forall c, map key (notificationBehavior c) =
                  ["soundEnabled"; "vibrationEnabled"])
  /\ (forall e c,
        map key (toggles (renderNotificationSettings e c)) =
          if supported e && isNotificationsEnabled c
          then map key (notificationTypes c) ++ map key (notificationBehavior c)
          else [])
  /\ (forall k v st,
        let st' := handleNotificationPreferenceChange k v st in
        notificationPreferences st'.1 !! k = Some v
        /\ last (savedPreferences st'.2) = Some (notificationPreferences st'.1)
        /\ forall k', k' <> k ->
              notificationPreferences st'.1 !! k' =
              notificationPreferences st.1 !! k')
  /\ (forall e c t st,
        t ∈ toggles (renderNotificationSettings e c) ->
        let st' := click t st in
        notificationPreferences st'.1 !! key t = Some (negb (pref st.1 (key t)))
        /\ forall k', k' <> key t ->
              notificationPreferences st'.1 !! k' =
              notificationPreferences st.1 !! k').
Proof.
  assert (Hchange : forall k v st,
        let st' := handleNotificationPreferenceChange k v st in
        notificationPreferences st'.1 !! k = Some v
        /\ last (savedPreferences st'.2) = Some (notificationPreferences st'.1)
        /\ forall k', k' <> k ->
              notificationPreferences st'.1 !! k' =
              notificationPreferences st.1 !! k').
  { intros k v [c e]. cbn. rewrite lookup_insert_eq, last_snoc.
    repeat split. intros k' Hk. by rewrite lookup_insert_ne. }
  split; [|split; [|split; [|split]]].
  - intros c. cbn.
    apply (Permutation_swap "sessionStart" "sessionExit").
  - done.
  - intros e c. unfold renderNotificationSettings.
    destruct (supported e), (isNotificationsEnabled c); reflexivity.
  - exact Hchange.
  - intros e c t st Ht.
    assert (Hk : onClick t st.1 = (key t, negb (pref st.1 (key t)))).
    { unfold renderNotificationSettings in Ht.
      destruct (supported e), (isNotificationsEnabled c);
        cbn [negb toggles] in Ht; try (by apply elem_of_nil in Ht).
      cbn [notificationTypes app] in Ht. unfold notificationBehavior in Ht.
      rewrite !elem_of_cons, elem_of_nil in Ht.
      destruct Ht as [->|[->|[->|[->|[->|[->|[->|[->|[]]]]]]]]]; done. }
    unfold click. rewrite Hk. simpl fst. simpl snd.
    destruct (Hchange (key t) (negb (pref st.1 (key t))) st) as (H1 & _ & H3).
    split; [exact H1|exact H3].
Qed.

Lemma notification_toggles_witness :
  let c := {| visible := true;
              notificationPreferences :=
                <["enabled" := true]> (<["bell" := true]> ∅);
              permission := Granted; subscription := true;
              isLoading := false; testingNotification := false;
              appPreferences := DEFAULT_APP_PREFERENCES |} in
  let e := {| stored := Storage.Absent; writable := true;
              savedPreferences := []; supported := true;
              iosSafari := false; standalone := false |} in
  let t := renderNotificationToggle c "bell" "System Alerts"
             "Terminal bell (^G) from vim, IRC mentions, completion sounds" in
  (t ∈ toggles (renderNotificationSettings e c))
  /\ notificationPreferences (click t (c, e)).1 !! "bell" = Some false
  /\ notificationPreferences (click t (c, e)).1 !! "enabled" = Some true.
Proof.
  cbv zeta.
  set (c := {| visible := true;
              notificationPreferences :=
                <["enabled" := true]> (<["bell" := true]> ∅);
              permission := Granted; subscription := true;
              isLoading := false; testingNotification := false;
              appPreferences := DEFAULT_APP_PREFERENCES |}).
  set (e := {| stored := Storage.Absent; writable := true;
              savedPreferences := []; supported := true;
              iosSafari := false; standalone := false |}).
  set (t := renderNotificationToggle c "bell" "System Alerts"
             "Terminal bell (^G) from vim, IRC mentions, completion sounds").
  assert (Ht : t ∈ toggles (renderNotificationSettings e c)).
  { change (toggles (renderNotificationSettings e c))
      with (notificationTypes c ++ notificationBehavior c).
    do 4 apply list_elem_of_further. apply list_elem_of_here. }
  split; [exact Ht|].
  destruct notification_toggles as (_ & _ & _ & _ & Hclick).
  destruct (Hclick e c t (c, e) Ht) as [H1 H2].
  split; [exact H1|].
  rewrite (H2 "enabled"); [reflexivity|discriminate].
Defined.

End SettingsFacts.

(** ** The session service and the registry *)

Module SessionServiceFacts.
Import SessionService Registry.

(** C6. [createSession] hands the outcome of the API client's call
    to its caller as it is: when the call throws, the same error is
    thrown again, after one line naming it has been logged; when the
    call returns an id, that id is returned and nothing is logged.
    In both cases the server is left as the API client left it. *)
Theorem createSession_reports {E S Session SessionCreateData : Type}
    (apiClient : APIClient E S Session SessionCreateData)
    (describe : E -> string) (data : SessionCreateData) (w : world S) :
  let call := api_createSession apiClient data (server w) in
  let result := createSession apiClient describe data w in
  result.1 = call.1
  /\ server result.2 = call.2
  /\ errors result.2 =
       match call.1 with
       | inl error => errors w ++ ["Failed to create session: " +:+ describe error]
       | inr _ => errors w
       end.
Proof.
  cbv zeta. unfold createSession.
  destruct (api_createSession apiClient data (server w)) as [[error|id] s]; done.
Qed.

(** The service adds nothing to the two cleanup calls. *)
Lemma forward_spec {E S A} (call : throws E S A) (w : world S) :
  forward call w =
    ((call (server w)).1,
     {| server := (call (server w)).2; errors := errors w |}).
Proof. unfold forward. by destruct (call (server w)). Qed.

(** C4. On a registry that holds a session under [sessionId] whose
    status is not Exited, [cleanupSession] fails with
    [SessionStillRunning] and leaves the registry, and the whole
    state, as it was. *)
Theorem cleanup_running_refused {SessionCreateData : Type}
    (rest : APIClient ControlError (gmap string Session) Session SessionCreateData)
    (w : world (gmap string Session)) (sessionId : string) (s : Session) :
  server w !! sessionId = Some s ->
  status s <> Exited ->
  cleanupSession (client rest) sessionId w = (inl SessionStillRunning, w)
  /\ cleanup sessionId (server w) = (inl SessionStillRunning, server w).
Proof.
  intros Hs Hst.
  assert (Hc : cleanup sessionId (server w) = (inl SessionStillRunning, server w)).
  { unfold cleanup, isExited. rewrite Hs. by destruct (status s). }
  split; [|done]. unfold cleanupSession. rewrite forward_spec. cbn.
  rewrite Hc. by destruct w.
Qed.

Lemma cleanup_running_refused_witness :
  let w := {| server := {[ "s1" := demoSession Running ]}; errors := [] |} in
  cleanupSession (client demoClient) "s1" w = (inl SessionStillRunning, w)
  /\ cleanup "s1" (server w) = (inl SessionStillRunning, server w).
Proof.
  cbv zeta.
  apply (cleanup_running_refused demoClient _ "s1" (demoSession Running)).
  - reflexivity.
  - discriminate.
Defined.

(** *** Cleaning up all exited sessions *)

Section CleanupAll.
Variable reg0 : gmap string Session.

(** What holds after the sessions of [m] have been visited. *)
Let visited (acc : list string * gmap string Session)
    (m : gmap string Session) : Prop :=
  NoDup acc.1
  /\ (forall sid, sid ∈ acc.1 <->
        exists x s, m !! sid = Some x /\ isExited x = true
                    /\ reg0 !! sid = Some s /\ isExited s = true)
  /\ (forall sid, acc.2 !! sid =
                  if decide (sid ∈ acc.1) then None else reg0 !! sid).

Lemma visit_visited (i : string) (x : Session)
    (m : gmap string Session) (acc : list string * gmap string Session) :
  m !! i = None -> visited acc m -> visited (visit i x acc) (<[i := x]> m).
Proof.
  destruct acc as [removed cur]. intros Hi (Hnd & Hin & Hcur). simpl in *.
  assert (Hfresh : i ∉ removed).
  { intros (x' & ? & Hx & _)%Hin. congruence. }
  assert (Hcuri : cur !! i = reg0 !! i).
  { rewrite Hcur. by rewrite decide_False. }
  assert (Hother : forall sid, sid <> i ->
            (exists x' s, <[i := x]> m !! sid = Some x' /\ isExited x' = true
                          /\ reg0 !! sid = Some s /\ isExited s = true)
            <-> sid ∈ removed).
  { intros sid Hne. rewrite Hin. by rewrite lookup_insert_ne. }
  assert (Hkeep : ~ (exists s, reg0 !! i = Some s /\ isExited x = true
                              /\ isExited s = true) ->
                  visited (removed, cur) (<[i := x]> m)).
  { intros Hno. split; [|split]; simpl; [done| |done].
    intros sid. destruct (decide (sid = i)) as [->|Hne].
    - split; [done|]. intros (x' & s & Hx & Hex & Hs & Hes).
      rewrite lookup_insert_eq in Hx. injection Hx as <-.
      destruct Hno. eauto.
    - symmetry. by apply Hother. }
  unfold visit. destruct (isExited x) eqn:Hx; simpl.
  2:{ apply Hkeep. intros (s & _ & ? & _). done. }
  unfold cleanup. rewrite Hcuri.
  destruct (reg0 !! i) as [s|] eqn:Hs.
  2:{ apply Hkeep. intros (s & ? & _). done. }
  destruct (isExited s) eqn:Hes.
  2:{ apply Hkeep. intros (s' & [= <-] & _ & ?). congruence. }
  split; [|split]; simpl.
  - by constructor.
  - intros sid. rewrite elem_of_cons.
    destruct (decide (sid = i)) as [->|Hne].
    + split; [|by left]. intros _. exists x, s.
      by rewrite lookup_insert_eq.
    + rewrite (Hother sid Hne). split; [intros [?|?]; done|by right].
  - intros sid. destruct (decide (sid = i)) as [->|Hne].
    + rewrite lookup_delete_eq, decide_True; [done|by left].
    + rewrite lookup_delete_ne by done. rewrite Hcur.
      destruct (decide (sid ∈ removed)) as [Hr|Hr].
      * rewrite decide_True; [done|by right].
      * rewrite decide_False; [done|].
        rewrite elem_of_cons. intros [?|?]; done.
Qed.

Lemma cleanupAllExited_spec (m : gmap string Session) :
  visited (map_fold visit ([], reg0) m) m.
Proof.
  apply (map_fold_weak_ind visited).
  - split; [|split]; simpl.
    + constructor.
    + intros sid. split; [by intros ?%elem_of_nil|].
      intros (x & s & Hx & _). by rewrite lookup_empty in Hx.
    + done.
  - intros i x m' r Hi Hr. by apply visit_visited.
Qed.
End CleanupAll.

(** C5. [cleanupAllExitedSessions] returns, without repetition, the
    ids of the sessions it removed: an id is in the returned list
    exactly when the registry held a session under it before the call
    and holds none after; these are the sessions that were Exited,
    and every other id is left as it was. *)
Theorem cleanupAllExited_exact {SessionCreateData : Type}
    (rest : APIClient ControlError (gmap string Session) Session SessionCreateData)
    (w : world (gmap string Session)) :
  exists (removed : list string) (reg' : gmap string Session),
    cleanupAllExitedSessions (client rest) w =
      (inr removed, {| server := reg'; errors := errors w |})
    /\ NoDup removed
    /\ (forall sid, sid ∈ removed <->
          is_Some (server w !! sid) /\ reg' !! sid = None)
    /\ (forall sid, sid ∈ removed <->
          exists s, server w !! sid = Some s /\ status s = Exited)
    /\ (forall sid, sid ∉ removed -> reg' !! sid = server w !! sid).
Proof.
  unfold cleanupAllExitedSessions. rewrite forward_spec. cbn.
  unfold cleanupAllExited.
  pose proof (cleanupAllExited_spec (server w) (server w)) as H.
  destruct (map_fold visit ([], server w) (server w)) as [removed reg'].
  destruct H as (Hnd & Hin & Hcur). simpl in *.
  exists removed, reg'. split; [done|]. split; [done|].
  assert (Hex : forall sid, sid ∈ removed <->
            exists s, server w !! sid = Some s /\ status s = Exited).
  { intros sid. rewrite Hin. split.
    - intros (x & s & Hx & Hex & _). exists x. split; [done|].
      unfold isExited in Hex. by destruct (status x).
    - intros (s & Hs & Hst). exists s, s. unfold isExited. by rewrite Hst. }
  split; [|split; [exact Hex|]].
  - intros sid. split.
    + intros Hsid. split.
      * apply Hex in Hsid as (s & -> & _). eauto.
      * rewrite Hcur. by rewrite decide_True.
    + intros [[s Hs] Hn]. rewrite Hcur in Hn.
      destruct (decide (sid ∈ removed)); [done|]. congruence.
  - intros sid Hsid. rewrite Hcur. by rewrite decide_False.
Qed.

End SessionServiceFacts.

(** ** More on the log viewer *)

Module LogViewerMore.
Import Js Regex LogViewer JsFacts LogViewerFacts LogViewerState.

(** *** Lines of a text *)

Lemma split_lines_cons (s : jsstring) :
  exists l ls, split_lines s = l :: ls.
Proof.
  induction s as [|c s (l & ls & IH)]; simpl; [by eauto|].
  destruct (code c =? 10)%nat; [by eauto|]. rewrite IH. eauto.
Qed.

Lemma code_LF (c : ascii) : (code c =? 10)%nat = true -> c = LF.
Proof.
  intros H%Nat.eqb_eq. unfold code in H.
  rewrite <- (ascii_nat_embedding c), H. reflexivity.
Qed.

(** Splitting at a newline splits the list of lines. *)
Lemma split_lines_app (a b : jsstring) :
  split_lines (a ++ LF :: b) = split_lines a ++ split_lines b.
Proof.
  induction a as [|c a IH]; [done|]. cbn [app split_lines].
  destruct (code c =? 10)%nat; [by rewrite IH|].
  rewrite IH. by destruct (split_lines_cons a) as (l & ls & ->).
Qed.

Lemma split_lines_spaces (s : jsstring) :
  allOf isSpace s -> Forall (fun l => isBlank l = true) (split_lines s).
Proof.
  induction 1 as [|c s Hc _ IH]; simpl.
  - by repeat constructor.
  - destruct (code c =? 10)%nat; [by constructor|].
    destruct (split_lines s) as [|l ls]; inversion_clear IH as [|? ? Hl Hls].
    all: constructor; [|done]; rewrite isBlank_spec in *; simpl; by rewrite Hc.
Qed.

(** *** Blank lines *)

Lemma run_blanks blanks : forall st,
  Forall (fun l => isBlank l = true) blanks -> run st blanks = st.
Proof.
  induction blanks as [|l blanks IH]; intros st Hb; [done|].
  inversion_clear Hb as [|? ? Hl Hbs]. unfold run in *. cbn [fold_left].
  rewrite (step_blank _ _ Hl). by apply IH.
Qed.

Lemma parseLines_blanks a blanks b :
  Forall (fun l => isBlank l = true) blanks ->
  parseLines (a ++ blanks ++ b) = parseLines (a ++ b).
Proof.
  intros Hb. rewrite !parseLines_finish, !run_app.
  by rewrite (run_blanks blanks _ Hb).
Qed.

(** Lines made of spaces can be put anywhere between two lines of the
    text without changing the entries. *)
Theorem parseLogs_ignores_blank (t1 blank t2 : jsstring) :
  allOf isSpace blank ->
  parseLogs (t1 ++ LF :: blank ++ LF :: t2) = parseLogs (t1 ++ LF :: t2).
Proof.
  intros Hb. unfold parseLogs.
  rewrite (split_lines_app t1 (blank ++ LF :: t2)), (split_lines_app blank t2).
  rewrite (split_lines_app t1 t2).
  apply parseLines_blanks. by apply split_lines_spaces.
Qed.

Lemma parseLogs_ignores_blank_witness :
  parseLogs (lit "12:00 log [srv] up" ++ LF :: lit "   " ++ LF :: lit "  at main") =
  parseLogs (lit "12:00 log [srv] up" ++ LF :: lit "  at main").
Proof.
  apply (parseLogs_ignores_blank (lit "12:00 log [srv] up") (lit "   ")
           (lit "  at main")).
  repeat constructor.
Defined.

(** A text made of spaces and newlines only, the empty text included,
    has no entry. *)
Theorem parseLogs_blank_text (text : jsstring) :
  allOf isSpace text -> parseLogs text = [].
Proof.
  intros Hs. unfold parseLogs. rewrite parseLines_finish.
  by rewrite (run_blanks _ _ (split_lines_spaces _ Hs)).
Qed.

Lemma parseLogs_blank_text_witness :
  parseLogs [] = [] /\ parseLogs (lit "  " ++ LF :: CR :: LF :: lit " ") = [].
Proof.
  split.
  - apply parseLogs_blank_text. constructor.
  - apply parseLogs_blank_text. repeat constructor.
Defined.

(** *** The pattern *)

(** Backtracking leaves no choice: the pattern matches a line exactly
    when the line reads "timestamp level [module] message", and then
    the four groups are determined by the line. *)
Theorem entry_pattern_unambiguous (line : jsstring) :
  (forall m,
     matchAnchored entryRegex line = Some m <->
     exists ts lvl md msg,
       m = [line; ts; lvl; md; msg] /\ lineForm line ts lvl md msg)
  /\ (forall ts lvl md msg ts' lvl' md' msg',
        lineForm line ts lvl md msg -> lineForm line ts' lvl' md' msg' ->
        ts = ts' /\ lvl = lvl' /\ md = md' /\ msg = msg').
Proof.
  split; [intros m; apply match_iff_form|].
  intros ts lvl md msg ts' lvl' md' msg' H1 H2.
  apply form_scan in H1, H2. rewrite H1 in H2. by injection H2 as -> -> -> ->.
Qed.

Lemma entry_pattern_unambiguous_witness :
  matchAnchored entryRegex (lit "12:00 WARN [srv]  a [b] c") =
    Some [lit "12:00 WARN [srv]  a [b] c";
          lit "12:00"; lit "WARN"; lit "srv"; lit "a [b] c"].
Proof.
  apply (entry_pattern_unambiguous (lit "12:00 WARN [srv]  a [b] c")).
  exists (lit "12:00"), (lit "WARN"), (lit "srv"), (lit "a [b] c").
  split; [reflexivity|].
  exists (lit " "), (lit " "), (lit "  ").
  repeat split; try discriminate; repeat constructor.
Defined.

(** *** Appending to the log *)

Lemma blank_continues l : isBlank l = true -> continues l = true.
Proof. unfold continues, startsEntry. by intros ->. Qed.

Lemma parseLines_app_entry (l1 l2 : list jsstring) :
  match dropWhile isBlank l2 with
  | [] => True
  | l :: _ => startsEntry l = true
  end ->
  parseLines (l1 ++ l2) = parseLines l1 ++ parseLines l2.
Proof.
  intros H.
  pose proof (takeWhile_dropWhile isBlank l2) as E.
  pose proof (takeWhile_all isBlank l2) as Hb.
  destruct (dropWhile isBlank l2) as [|m rest].
  - rewrite app_nil_r in E. rewrite <- E.
    pose proof (parseLines_blanks l1 _ [] Hb) as H1.
    pose proof (parseLines_blanks [] _ [] Hb) as H2.
    rewrite !app_nil_r in H1. rewrite app_nil_r in H2. simpl in H2.
    by rewrite H1, H2, app_nil_r.
  - rewrite <- E. rewrite (parseLines_blanks l1 _ (m :: rest) Hb).
    pose proof (parseLines_blanks [] _ (m :: rest) Hb) as H2.
    cbn [app] in H2. rewrite H2.
    apply startsEntry_iff in H as (ts & lvl & md & msg & Hf).
    rewrite (parseLines_entry l1 _ _ _ _ _ _ Hf).
    pose proof (parseLines_entry [] _ rest _ _ _ _ Hf) as H3.
    cbn [app] in H3. by rewrite H3.
Qed.

(** When the text grows by lines of which the first that is not blank
    starts an entry, the entries of the old text stay as they are and
    those of the added lines follow them. *)
Theorem parseLogs_append (t1 t2 : jsstring) :
  match dropWhile isBlank (split_lines t2) with
  | [] => True
  | l :: _ => startsEntry l = true
  end ->
  parseLogs (t1 ++ LF :: t2) = parseLogs t1 ++ parseLogs t2.
Proof.
  intros H. unfold parseLogs. rewrite split_lines_app.
  by apply parseLines_app_entry.
Qed.

Lemma parseLogs_append_witness :
  parseLogs (lit "12:00 log [srv] up" ++ LF :: lit "12:01 warn [srv] slow") =
  parseLogs (lit "12:00 log [srv] up") ++ parseLogs (lit "12:01 warn [srv] slow").
Proof.
  apply (parseLogs_append (lit "12:00 log [srv] up") (lit "12:01 warn [srv] slow")).
  vm_compute. reflexivity.
Defined.

(** *** Where the entries come from *)

Section Provenance.

(** What holds of the loop state once the lines [seen] have been
    read. *)
Let sound (seen : list jsstring) (st : state) : Prop :=
  Forall (fun e => fromUnparsedLine seen e \/ fromEntryLine seen e) st.1
  /\ forall e, st.2 = Some e -> fromEntryLine seen e.

Lemma fromEntryLine_mono seen l e :
  fromEntryLine seen e -> fromEntryLine (seen ++ [l]) e.
Proof.
  intros (l0 & ts & lvl & md & msg & extra & Hin & Hf & ->).
  exists l0, ts, lvl, md, msg, extra. repeat split; [|done].
  apply elem_of_app. by left.
Qed.

Lemma fromUnparsedLine_mono seen l e :
  fromUnparsedLine seen e -> fromUnparsedLine (seen ++ [l]) e.
Proof.
  intros (l0 & Hin & Hb & Hm & ->). exists l0. repeat split; [|done|done].
  apply elem_of_app. by left.
Qed.

Lemma step_sound seen st l : sound seen st -> sound (seen ++ [l]) (step st l).
Proof.
  destruct st as [logs cur]. intros [Hlogs Hcur]. simpl in Hlogs, Hcur.
  assert (Hlogs' : Forall (fun e => fromUnparsedLine (seen ++ [l]) e
                                    \/ fromEntryLine (seen ++ [l]) e) logs).
  { eapply Forall_impl; [exact Hlogs|]. intros e [H|H]; [left|right].
    - by apply fromUnparsedLine_mono.
    - by apply fromEntryLine_mono. }
  assert (Hl : l ∈ seen ++ [l]) by (apply elem_of_app; right; by left).
  destruct (isBlank l) eqn:Hb.
  { rewrite (step_blank _ _ Hb). split; [done|].
    intros e He. by apply fromEntryLine_mono, Hcur. }
  destruct (matchAnchored entryRegex l) as [m|] eqn:Hm.
  - apply match_iff_form in Hm as (ts & lvl & md & msg & _ & Hf).
    rewrite (step_entry _ _ _ _ _ _ _ Hf). split; simpl.
    + destruct cur as [e|]; simpl; [|done].
      apply Forall_app. split; [done|]. constructor; [|done].
      right. by apply fromEntryLine_mono, Hcur.
    + intros e [= <-]. exists l, ts, lvl, md, msg, []. repeat split; [done|done|].
      unfold entryOfLine. by rewrite app_nil_r.
  - destruct cur as [e|].
    + rewrite (step_append _ _ _ Hb Hm). split; [done|]. simpl.
      intros e' [= <-].
      destruct (Hcur e eq_refl) as (l0 & ts & lvl & md & msg & extra & Hin & Hf & ->).
      exists l0, ts, lvl, md, msg, (extra ++ LF :: l). repeat split; [|done|].
      * apply elem_of_app. by left.
      * unfold withMessage, entryOfLine. simpl. by rewrite <- app_assoc.
    + rewrite (step_unknown _ _ Hb Hm). split; [|done]. simpl.
      apply Forall_app. split; [done|]. constructor; [|done].
      left. by exists l.
Qed.

Lemma run_sound rest : forall seen st,
  sound seen st -> sound (seen ++ rest) (run st rest).
Proof.
  induction rest as [|l rest IH]; intros seen st Hs.
  - by rewrite app_nil_r.
  - unfold run in *. cbn [fold_left].
    replace (seen ++ l :: rest) with ((seen ++ [l]) ++ rest)
      by (by rewrite <- app_assoc).
    by apply IH, step_sound.
Qed.

End Provenance.

Lemma parseLines_provenance (lines : list jsstring) :
  Forall (fun e => fromUnparsedLine lines e \/ fromEntryLine lines e)
         (parseLines lines).
Proof.
  rewrite parseLines_finish.
  pose proof (run_sound lines [] ([], None)) as H.
  simpl in H. destruct H as [Hlogs Hcur]; [by split|].
  destruct (run ([], None) lines) as [logs cur].
  unfold finish. simpl in *. destruct cur as [e|]; simpl; [|done].
  apply Forall_app. split; [done|]. constructor; [|done]. right. by apply Hcur.
Qed.

(** Every entry of the result comes from a line of the text: either it
    is the "unknown" entry of a line that has a character other than a
    space and does not match the pattern, or it is the entry of a line
    of the form "timestamp level [module] message", with its message
    possibly extended. *)
Theorem parseLogs_provenance (text : jsstring) :
  Forall (fun e => fromUnparsedLine (split_lines text) e
                   \/ fromEntryLine (split_lines text) e)
         (parseLogs text).
Proof. apply parseLines_provenance. Qed.

Lemma lowerChar_idem (c : ascii) : lowerChar (lowerChar c) = lowerChar c.
Proof. destruct c as [[] [] [] [] [] [] [] []]; reflexivity. Qed.

Lemma toLowerCase_idem (s : jsstring) : toLowerCase (toLowerCase s) = toLowerCase s.
Proof.
  unfold toLowerCase. rewrite map_map. apply map_ext. apply lowerChar_idem.
Qed.

(** The level of every entry is in lower case: it has no capital
    letter, and [toLowerCase] leaves it as it is.  This is how the
    level filter names the levels. *)
Theorem parseLogs_levels_lower (text : jsstring) :
  Forall (fun e => Forall (fun c => isUpper c = false) (level e)
                   /\ toLowerCase (level e) = level e)
         (parseLogs text).
Proof.
  eapply Forall_impl; [apply (parseLines_provenance (split_lines text))|].
  intros e [(l & _ & _ & _ & ->)|(l & ts & lvl & md & msg & extra & _ & _ & ->)].
  - split; [repeat constructor|reflexivity].
  - split; [apply toLowerCase_not_upper|apply toLowerCase_idem].
Qed.

Lemma parseLogs_levels_lower_witness :
  map level (parseLogs (lit "12:00 WARN [srv] slow" ++ LF :: lit "12:01 Error [ui] boom"))
    = [lit "warn"; lit "error"]
  /\ Forall (fun e => Forall (fun c => isUpper c = false) (level e)
                      /\ toLowerCase (level e) = level e)
            (parseLogs (lit "12:00 WARN [srv] slow" ++ LF :: lit "12:01 Error [ui] boom")).
Proof.
  split; [reflexivity|].
  exact (parseLogs_levels_lower
           (lit "12:00 WARN [srv] slow" ++ LF :: lit "12:01 Error [ui] boom")).
Defined.

(** *** The shape of the result *)

Lemma run_unparsed pre : forall logs,
  Forall (fun l => continues l = true) pre ->
  run (logs, None) pre =
    (logs ++ map unknownEntry (List.filter (fun l => negb (isBlank l)) pre), None).
Proof.
  induction pre as [|l pre IH]; intros logs Hc.
  - simpl. by rewrite app_nil_r.
  - inversion_clear Hc as [|? ? Hl Hc']. unfold run in *. cbn [fold_left List.filter].
    destruct (continues_cases _ Hl) as [Hb|[Hb Hm]]; rewrite Hb; cbn [negb].
    + rewrite (step_blank _ _ Hb). by apply IH.
    + rewrite (step_unknown _ _ Hb Hm), (IH _ Hc'). cbn [map].
      by rewrite <- app_assoc.
Qed.

Lemma parsed_part (lines : list jsstring) :
  length (parseLines (dropWhile continues lines))
    = length (List.filter startsEntry lines)
  /\ Forall (fun e => timestamp e <> []) (parseLines (dropWhile continues lines)).
Proof.
  induction lines as [|l lines [IH1 IH2]]; [split; [done|constructor]|].
  cbn [dropWhile List.filter]. unfold continues at 1 3.
  destruct (startsEntry l) eqn:Hs; simpl; [|done].
  apply startsEntry_iff in Hs as (ts & lvl & md & msg & Hf).
  pose proof (parseLines_entry [] l lines _ _ _ _ Hf) as H.
  change (parseLines []) with (@nil LogEntry) in H. cbn [app] in H. rewrite H.
  cbn [length]. split; [by rewrite IH1|]. constructor; [|done].
  cbn [timestamp]. by destruct Hf as (? & ? & ? & _ & ? & _).
Qed.

(** The result is made of the "unknown" entries of the lines before
    the first entry line (the blank ones apart), followed by one entry
    for each entry line of the text, each with a timestamp. *)
Theorem parseLogs_shape (text : jsstring) :
  let lines := split_lines text in
  exists parsed,
    parseLogs text =
      map unknownEntry
          (List.filter (fun l => negb (isBlank l)) (takeWhile continues lines))
      ++ parsed
    /\ length parsed = length (List.filter startsEntry lines)
    /\ Forall (fun e => timestamp e <> []) parsed.
Proof.
  intros lines. exists (parseLines (dropWhile continues lines)).
  destruct (parsed_part lines) as [H1 H2]. split; [|done].
  unfold parseLogs. fold lines.
  rewrite <- (takeWhile_dropWhile continues lines) at 1.
  rewrite parseLines_finish, run_app.
  rewrite (run_unparsed _ [] (takeWhile_all continues lines)).
  fold (run ([] ++ map unknownEntry
               (List.filter (fun l => negb (isBlank l)) (takeWhile continues lines)),
             None) (dropWhile continues lines)).
  by rewrite finish_shift, <- parseLines_finish.
Qed.

(** *** The level filter *)

(** Clicking a level button twice leaves the element as it was. *)
Theorem toggleLevel_twice (lvl : jsstring) (v : viewer) :
  toggleLevel lvl (toggleLevel lvl v) = v.
Proof.
  destruct v as [lg ld f lf a sz sc ss]. unfold toggleLevel. simpl.
  destruct (decide (lvl ∈ lf)) as [Hin|Hout]; simpl.
  - rewrite decide_False
      by (rewrite elem_of_difference, elem_of_singleton; by intros [_ ?]).
    unfold setLevelFilter. simpl.
    f_equal. apply set_eq. intros x. rewrite elem_of_union, elem_of_difference.
    rewrite elem_of_singleton. destruct (decide (x = lvl)) as [->|Hne].
    + split; [done|by right].
    + split; [by intros [[? _]|?]|by left].
  - rewrite decide_True
      by (rewrite elem_of_union, elem_of_singleton; by right).
    unfold setLevelFilter. simpl.
    f_equal. apply set_eq. intros x. rewrite elem_of_difference, elem_of_union.
    rewrite elem_of_singleton. destruct (decide (x = lvl)) as [->|Hne].
    + split; [by intros [_ ?]|done].
    + split; [by intros [[?|?] _]|by split; [left|]].
Qed.

Lemma act_levelFilter (a : action) (v : viewer) :
  levelFilter v ⊆ list_to_set levels ->
  levelFilter (act a v) ⊆ list_to_set levels.
Proof.
  intros Hsub. destruct a as [i| | | |text|info raw|confirmed ok]; simpl; try done.
  - destruct (levels !! i) as [lvl|] eqn:Hi; [|done].
    assert (lvl ∈ levels) by (by eapply list_elem_of_lookup_2).
    assert (lvl ∈ (list_to_set levels : gset (list ascii)))
      by (by apply elem_of_list_to_set).
    unfold toggleLevel. destruct (decide (lvl ∈ levelFilter v)); simpl.
    + intros x [Hx _]%elem_of_difference. by apply Hsub.
    + intros x [Hx|Hx]%elem_of_union; [by apply Hsub|].
      apply elem_of_singleton in Hx. by subst x.
  - unfold loadLogs. destruct info, raw; simpl; done.
  - unfold clearLogs. destruct confirmed, ok; simpl; done.
Qed.

Lemma actAll_levelFilter (l : list action) : forall v,
  levelFilter v ⊆ list_to_set levels ->
  levelFilter (actAll l v) ⊆ list_to_set levels.
Proof.
  induction l as [|a l IH]; intros v Hv; [done|].
  unfold actAll in *. cbn [fold_left]. by apply IH, act_levelFilter.
Qed.

(** Whatever the user clicks and types and whatever is loaded, an
    entry whose level is not one of "error", "warn", "log" and "debug"
    is never among the entries shown. *)
Theorem other_levels_hidden (l : list action) (log : LogEntry) :
  level log ∉ levels ->
  log ∉ filteredLogs (actAll l initial).
Proof.
  intros Hlevel Hin. unfold filteredLogs in Hin.
  apply list_elem_of_In, filter_In in Hin as [_ Hshown].
  unfold shown in Hshown.
  destruct (bool_decide (level log ∈ levelFilter (actAll l initial))) eqn:Hd;
    [|done].
  apply bool_decide_eq_true in Hd.
  assert (Hsub : levelFilter (actAll l initial) ⊆ list_to_set levels).
  { apply actAll_levelFilter. done. }
  apply Hsub in Hd. by apply elem_of_list_to_set in Hd.
Qed.

Lemma other_levels_hidden_witness :
  let log := {| timestamp := lit "12:00"; level := lit "info";
                module := lit "srv"; message := lit "ready";
                isClient := false |} in
  let l := [Refresh (InfoOk (lit "1 KB")) (Some (lit "12:00 INFO [srv] ready"));
            ClickLevel 2; Input (lit "ready")] in
  (level log ∉ levels)
  /\ logs (actAll l initial) = [log]
  /\ (log ∉ filteredLogs (actAll l initial)).
Proof.
  cbv zeta.
  assert (H : lit "info" ∉ levels).
  { unfold levels. rewrite !elem_of_cons, elem_of_nil.
    intros [?|[?|[?|[?|?]]]]; done. }
  split; [exact H|]. split; [reflexivity|].
  exact (other_levels_hidden _
           {| timestamp := lit "12:00"; level := lit "info";
              module := lit "srv"; message := lit "ready";
              isClient := false |} H).
Defined.

(** *** The search field *)

Lemma toLowerCase_truthy (s t : jsstring) :
  toLowerCase s = toLowerCase t -> truthy s = truthy t.
Proof. destruct s, t; simpl; done. Qed.

(** The search does not look at the case of what is typed: two search
    texts that differ only in case show the same entries. *)
Theorem search_ignores_case (v : viewer) (text : jsstring) :
  toLowerCase text = toLowerCase (filter v) ->
  filteredLogs (act (Input text) v) = filteredLogs v.
Proof.
  intros Heq. unfold filteredLogs. simpl.
  apply filter_ext. intros log. unfold shown. simpl.
  by rewrite (toLowerCase_truthy _ _ Heq), Heq.
Qed.

Lemma search_ignores_case_witness :
  let v := act (Input (lit "boom"))
             (act (Refresh InfoNotOk (Some (lit "12:00 error [ui] Boom"))) initial) in
  filteredLogs (act (Input (lit "BOOM")) v) = filteredLogs v.
Proof.
  cbv zeta. apply search_ignores_case. reflexivity.
Defined.

(** *** Relative times *)

Example formatRelativeTime_samples :
  formatRelativeTime (Some 1000%Z) 46999%Z "12:00:01" = "45s ago"
  /\ formatRelativeTime (Some 0%Z) 7200000%Z "00:00:00" = "2h ago"
  /\ formatRelativeTime (Some 5000%Z) 0%Z "00:00:05" = "-5s ago"
  /\ formatRelativeTime None 0%Z "Invalid Date" = "Invalid Date".
Proof. repeat split; reflexivity. Qed.


Lemma roundDouble_exact (d : Z) :
  (Z.abs d <= 2 ^ 53)%Z -> roundDouble d = d.
Proof.
  intros H. unfold roundDouble.
  by destruct (Z.leb_spec (Z.abs d) (2 ^ 53)); [|lia].
Qed.

(** For two time values at most 2^53 milliseconds apart (some 285,000
    years): a timestamp less than a minute old (or in the future) is
    shown in whole seconds, one less than an hour old in whole minutes,
    one less than a day old in whole hours, each rounded down; an older
    one is shown as a time of day. *)
Theorem formatRelativeTime_ranges (t now : Z) (clock : string) :
  (Z.abs (now - t) <= 2 ^ 53)%Z ->
  formatRelativeTime (Some t) now clock =
    (let d := (now - t)%Z in
     if (d <? 60000)%Z then pretty (d / 1000)%Z +:+ "s ago"
     else if (d <? 3600000)%Z then pretty (d / 60000)%Z +:+ "m ago"
     else if (d <? 86400000)%Z then pretty (d / 3600000)%Z +:+ "h ago"
     else clock).
Proof.
  intros Hd. unfold formatRelativeTime. cbv zeta.
  rewrite (roundDouble_exact _ Hd).
  set (d := (now - t)%Z).
  rewrite !Z.div_div by lia.
  change (1000 * 60)%Z with 60000%Z. change (60000 * 60)%Z with 3600000%Z.
  assert (Hdiv : forall b q : Z, (0 < b)%Z ->
                   (d / b <? q)%Z = (d <? b * q)%Z).
  { intros b q Hb. apply eq_true_iff_eq. rewrite !Z.ltb_lt.
    pose proof (Z.div_mod d b ltac:(lia)) as Hm.
    pose proof (Z.mod_pos_bound d b Hb) as Hr.
    split; intros H; nia. }
  assert (H1 : (d / 1000 <? 60)%Z = (d <? 60000)%Z) by (by rewrite Hdiv).
  assert (H2 : (d / 60000 <? 60)%Z = (d <? 3600000)%Z) by (by rewrite Hdiv).
  assert (H3 : (d / 3600000 <? 24)%Z = (d <? 86400000)%Z) by (by rewrite Hdiv).
  by rewrite H1, H2, H3.
Qed.

Lemma formatRelativeTime_ranges_witness :
  formatRelativeTime (Some 1700000000000%Z) 1700000125999%Z "12:00:00" = "2m ago"
  /\ formatRelativeTime (Some 1700000000000%Z) 1700000059999%Z "12:00:00" = "59s ago"
  /\ formatRelativeTime (Some 1700000000000%Z) 1700086399999%Z "12:00:00" = "23h ago"
  /\ formatRelativeTime (Some 1700000000000%Z) 1700086400000%Z "12:00:00" = "12:00:00"
  /\ formatRelativeTime (Some 1700000000000%Z) 1699999999999%Z "12:00:00" = "-1s ago".
Proof.
  split; [|split; [|split; [|split]]].
  - rewrite (formatRelativeTime_ranges 1700000000000 1700000125999 "12:00:00");
      [reflexivity|vm_compute; discriminate].
  - rewrite (formatRelativeTime_ranges 1700000000000 1700000059999 "12:00:00");
      [reflexivity|vm_compute; discriminate].
  - rewrite (formatRelativeTime_ranges 1700000000000 1700086399999 "12:00:00");
      [reflexivity|vm_compute; discriminate].
  - rewrite (formatRelativeTime_ranges 1700000000000 1700086400000 "12:00:00");
      [reflexivity|vm_compute; discriminate].
  - rewrite (formatRelativeTime_ranges 1700000000000 1699999999999 "12:00:00");
      [reflexivity|vm_compute; discriminate].
Defined.

(** The difference of two far-apart time values is rounded as the
    doubles round it. *)
Example formatRelativeTime_far :
  formatRelativeTime (Some 8639999999999001%Z) (-8640000000000000)%Z "clock"
  = "-17279999999999s ago".
Proof. reflexivity. Qed.

End LogViewerMore.

(** ** More on the terminal preferences manager *)

Module TerminalPreferencesMore.
Import JsValue TerminalPreferencesManager NumberFacts TerminalPreferencesFacts.

(** What a setter of one field does to the world. *)
Lemma setField_spec (this : ref) (k : string) (v : value) (w : world) (m : manager) :
  heap w !! this = Some m ->
  savePreferences this (assignField this k v w) =
    {| heap := <[this := {| preferences := <[k := v]> (preferences m) |}]> (heap w);
       instance := instance w;
       stored := Storage.setJson (writable w)
                   (VObj (<[k := v]> (preferences m))) (stored w);
       writable := writable w;
       mobile := mobile w |}.
Proof.
  intros Hm. unfold savePreferences, assignField, assign. rewrite Hm. simpl.
  by rewrite lookup_insert_eq.
Qed.

(** The font size that [setFontSize] keeps lies between 8 and 32 and
    is the given one when that lies in this range; the column limit
    that [setMaxCols] keeps is not negative and is the given one when
    that is not negative.  (A NaN is kept as it is.) *)
Theorem setters_bounds (w : world) (this : ref) (m : manager) (x : number) :
  heap w !! this = Some m ->
  x <> NaN ->
  (exists y,
     getFontSize this (setFontSize this x w) = Some (VNum y)
     /\ leb (ofZ 8) y = true /\ leb y (ofZ 32) = true
     /\ (leb (ofZ 8) x = true -> leb x (ofZ 32) = true -> y = x))
  /\ (exists y,
       getMaxCols this (setMaxCols this x w) = Some (VNum y)
       /\ leb (ofZ 0) y = true
       /\ (leb (ofZ 0) x = true -> y = x)).
Proof.
  intros Hm Hx.
  assert (Hcols : getMaxCols this (setMaxCols this x w)
                  = Some (VNum (Math_max (ofZ 0) x)))
    by exact (set_get_maxCols w this m x Hm).
  assert (Hfont : getFontSize this (setFontSize this x w)
                  = Some (VNum (Math_min (ofZ 32) (Math_max (ofZ 8) x)))).
  { unfold getFontSize, setFontSize.
    rewrite field_savePreferences, (field_assignField _ _ _ _ _ _ Hm).
    by rewrite decide_True, clamp_8_32. }
  assert (H8 : ofZ 8 <> NaN) by done.
  assert (H32 : ofZ 32 <> NaN) by done.
  assert (H0 : ofZ 0 <> NaN) by done.
  split.
  - exists (Math_min (ofZ 32) (Math_max (ofZ 8) x)). split; [done|].
    destruct (Math_max_upper (ofZ 8) x H8 Hx) as (Ha & Hb & Hc).
    assert (Hmax : Math_max (ofZ 8) x <> NaN) by (destruct Hc as [-> | ->]; done).
    destruct (Math_min_lower (ofZ 32) _ H32 Hmax) as (Hd & He & Hf).
    repeat split.
    + destruct Hf as [-> | ->]; [done|exact Ha].
    + exact Hd.
    + intros Hlo Hhi.
      assert (Math_max (ofZ 8) x = x) as Hmx.
      { destruct Hc as [Hc|Hc]; [|done]. rewrite Hc.
        apply leb_antisym; [done|]. by rewrite <- Hc. }
      rewrite Hmx in *. destruct Hf as [Hf|Hf]; [|done]. rewrite Hf.
      apply leb_antisym; [|done]. by rewrite <- Hf.
  - exists (Math_max (ofZ 0) x). split; [done|].
    destruct (Math_max_upper (ofZ 0) x H0 Hx) as (Ha & Hb & Hc).
    split; [exact Ha|]. intros Hlo.
    destruct Hc as [Hc|Hc]; [|done]. rewrite Hc.
    apply leb_antisym; [done|]. by rewrite <- Hc.
Qed.

Lemma setters_bounds_witness :
  let w := {| heap := {[ 0 := {| preferences := DEFAULT_PREFERENCES false |} ]};
              instance := Some 0; stored := Storage.Absent;
              writable := true; mobile := false |} in
  let x := Fin (Q2Qc (25 # 2)) in
  (exists y,
     getFontSize 0 (setFontSize 0 x w) = Some (VNum y)
     /\ leb (ofZ 8) y = true /\ leb y (ofZ 32) = true
     /\ (leb (ofZ 8) x = true -> leb x (ofZ 32) = true -> y = x))
  /\ (exists y,
       getMaxCols 0 (setMaxCols 0 x w) = Some (VNum y)
       /\ leb (ofZ 0) y = true
       /\ (leb (ofZ 0) x = true -> y = x)).
Proof.
  cbv zeta.
  apply (setters_bounds _ 0 {| preferences := DEFAULT_PREFERENCES false |}).
  - reflexivity.
  - discriminate.
Defined.

(** Setting two different fields in either order gives the same
    world: the same preferences in memory and the same stored text. *)
Theorem setters_commute (w : world) (this : ref) (m : manager) (x y : number) :
  heap w !! this = Some m ->
  setFontSize this y (setMaxCols this x w)
  = setMaxCols this x (setFontSize this y w).
Proof.
  intros Hm. unfold setFontSize, setMaxCols.
  rewrite (setField_spec this "maxCols" _ w m Hm).
  rewrite (setField_spec this "fontSize" _ w m Hm).
  erewrite setField_spec by (simpl; apply lookup_insert_eq).
  erewrite setField_spec by (simpl; apply lookup_insert_eq).
  simpl. rewrite !insert_insert_eq.
  rewrite (insert_insert_ne (preferences m) "fontSize" "maxCols") by done.
  f_equal. by destruct (writable w).
Qed.

Lemma setters_commute_witness :
  let w := {| heap := {[ 0 := {| preferences := DEFAULT_PREFERENCES false |} ]};
              instance := Some 0; stored := Storage.Absent;
              writable := true; mobile := false |} in
  setFontSize 0 (ofZ 20) (setMaxCols 0 (ofZ 120) w)
  = setMaxCols 0 (ofZ 120) (setFontSize 0 (ofZ 20) w).
Proof.
  cbv zeta.
  apply (setters_commute _ 0 {| preferences := DEFAULT_PREFERENCES false |}).
  reflexivity.
Defined.

(** *** Saving and loading again *)

Lemma world_eta (w : world) :
  w = {| heap := heap w; instance := instance w; stored := stored w;
         writable := writable w; mobile := mobile w |}.
Proof. by destruct w. Qed.

(** With a storage that can be written, the value a setter keeps is
    the one [loadPreferences] reads back, as JSON carries it: a finite
    number as it is, NaN and the infinities as null.  With a storage
    that cannot be written, what is loaded next is what was loaded
    before. *)
Theorem setters_persist (w : world) (this : ref) (m : manager) (x : number) :
  heap w !! this = Some m ->
  if writable w then
    loadPreferences (setMaxCols this x w) !! "maxCols"
      = Some (match Math_max (ofZ 0) x with
              | Fin q => VNum (Fin q)
              | _ => VNull
              end)
    /\ loadPreferences (setFontSize this x w) !! "fontSize"
        = Some (match Math_max (ofZ 8) (Math_min (ofZ 32) x) with
                | Fin q => VNum (Fin q)
                | _ => VNull
                end)
  else
    loadPreferences (setMaxCols this x w) = loadPreferences w
    /\ loadPreferences (setFontSize this x w) = loadPreferences w.
Proof.
  intros Hm. unfold setMaxCols, setFontSize.
  rewrite !(setField_spec this _ _ w m Hm).
  unfold loadPreferences. cbn [stored mobile].
  destruct (writable w); cbn [Storage.setJson].
  - cbn [jsonImage spreadProps]. rewrite !PreferencesFacts.lookup_spread.
    rewrite !lookup_fmap, !lookup_insert_eq. cbn [fmap option_fmap option_map].
    split.
    + by destruct (Math_max (ofZ 0) x).
    + by destruct (Math_max (ofZ 8) (Math_min (ofZ 32) x)).
  - done.
Qed.

Lemma setters_persist_witness :
  let w := {| heap := {[ 0 := {| preferences := DEFAULT_PREFERENCES false |} ]};
              instance := Some 0; stored := Storage.Absent;
              writable := true; mobile := false |} in
  loadPreferences (setMaxCols 0 PosInf w) !! "maxCols" = Some VNull
  /\ loadPreferences (setFontSize 0 PosInf w) !! "fontSize" = Some (VNum (ofZ 32)).
Proof.
  cbv zeta.
  exact (setters_persist
           {| heap := {[ 0 := {| preferences := DEFAULT_PREFERENCES false |} ]};
              instance := Some 0; stored := Storage.Absent;
              writable := true; mobile := false |}
           0 {| preferences := DEFAULT_PREFERENCES false |} PosInf eq_refl).
Defined.

(** [setFitHorizontally] and [setTheme] keep the given value as it
    is (any string is taken as a theme), change no other field, and,
    with a storage that can be written, the value is the one
    [loadPreferences] reads back. *)
Theorem plain_setters (w : world) (this : ref) (m : manager)
    (b : bool) (theme : string) :
  heap w !! this = Some m ->
  getFitHorizontally this (setFitHorizontally this b w) = Some (VBool b)
  /\ getTheme this (setTheme this theme w) = Some (VStr theme)
  /\ (forall k, k <> "fitHorizontally" ->
        field this k (setFitHorizontally this b w) = field this k w)
  /\ (forall k, k <> "theme" ->
        field this k (setTheme this theme w) = field this k w)
  /\ (writable w = true ->
        loadPreferences (setFitHorizontally this b w) !! "fitHorizontally"
          = Some (VBool b)
        /\ loadPreferences (setTheme this theme w) !! "theme"
           = Some (VStr theme)).
Proof.
  intros Hm.
  unfold getFitHorizontally, setFitHorizontally, getTheme, setTheme.
  rewrite !field_savePreferences, !(field_assignField _ _ _ _ _ _ Hm).
  rewrite !decide_True by done.
  split; [done|]. split; [done|]. split; [|split].
  - intros k Hk. rewrite field_savePreferences, (field_assignField _ _ _ _ _ _ Hm).
    by rewrite decide_False.
  - intros k Hk. rewrite field_savePreferences, (field_assignField _ _ _ _ _ _ Hm).
    by rewrite decide_False.
  - intros Hwr. rewrite !(setField_spec this _ _ w m Hm).
    unfold loadPreferences. cbn [stored mobile]. rewrite Hwr.
    cbn [Storage.setJson jsonImage spreadProps].
    rewrite !PreferencesFacts.lookup_spread, !lookup_fmap, !lookup_insert_eq.
    done.
Qed.

Lemma plain_setters_witness :
  let w := {| heap := {[ 0 := {| preferences := DEFAULT_PREFERENCES false |} ]};
              instance := Some 0; stored := Storage.Absent;
              writable := true; mobile := false |} in
  getFitHorizontally 0 (setFitHorizontally 0 true w) = Some (VBool true)
  /\ getTheme 0 (setTheme 0 "no such theme" w) = Some (VStr "no such theme")
  /\ (forall k, k <> "fitHorizontally" ->
        field 0 k (setFitHorizontally 0 true w) = field 0 k w)
  /\ (forall k, k <> "theme" ->
        field 0 k (setTheme 0 "no such theme" w) = field 0 k w)
  /\ (true = true ->
        loadPreferences (setFitHorizontally 0 true w) !! "fitHorizontally"
          = Some (VBool true)
        /\ loadPreferences (setTheme 0 "no such theme" w) !! "theme"
           = Some (VStr "no such theme")).
Proof.
  cbv zeta.
  exact (plain_setters
           {| heap := {[ 0 := {| preferences := DEFAULT_PREFERENCES false |} ]};
              instance := Some 0; stored := Storage.Absent;
              writable := true; mobile := false |}
           0 {| preferences := DEFAULT_PREFERENCES false |} true "no such theme"
           eq_refl).
Defined.

(** *** Resetting *)

Lemma default_unknown (mobile : bool) (k : string) :
  k ∉ knownFields -> DEFAULT_PREFERENCES mobile !! k = None.
Proof.
  unfold knownFields, DEFAULT_PREFERENCES. rewrite !not_elem_of_cons.
  intros (? & ? & ? & ? & _).
  by rewrite !lookup_insert_ne, lookup_empty.
Qed.

Lemma default_image (mobile : bool) :
  spread (DEFAULT_PREFERENCES mobile) (jsonImage <$> DEFAULT_PREFERENCES mobile)
  = DEFAULT_PREFERENCES mobile.
Proof.
  apply map_eq. intros k. rewrite PreferencesFacts.lookup_spread, lookup_fmap.
  unfold DEFAULT_PREFERENCES.
  destruct (decide (k = "maxCols")) as [->|]; [by rewrite !lookup_insert_eq|].
  rewrite !(lookup_insert_ne _ "maxCols") by done.
  destruct (decide (k = "fontSize")) as [->|];
    [rewrite !lookup_insert_eq; by destruct mobile|].
  rewrite !(lookup_insert_ne _ "fontSize") by done.
  destruct (decide (k = "fitHorizontally")) as [->|]; [by rewrite !lookup_insert_eq|].
  rewrite !(lookup_insert_ne _ "fitHorizontally") by done.
  destruct (decide (k = "theme")) as [->|]; [by rewrite !lookup_insert_eq|].
  by rewrite !(lookup_insert_ne _ "theme"), lookup_empty.
Qed.

(** [resetToDefaults()] leaves exactly the defaults: the preferences
    in memory are the defaults, with no field carried from an earlier
    stored blob, and, with a storage that can be written, so are the
    preferences loaded next. *)
Theorem reset_gives_defaults (w : world) (this : ref) (m : manager) :
  heap w !! this = Some m ->
  let w' := resetToDefaults this w in
  getPreferences this w' = Some (DEFAULT_PREFERENCES (mobile w))
  /\ (forall k, k ∉ knownFields -> field this k w' = None)
  /\ (writable w = true -> loadPreferences w' = DEFAULT_PREFERENCES (mobile w)).
Proof.
  intros Hm w'.
  assert (Hw' : w' =
    {| heap := <[this := {| preferences := DEFAULT_PREFERENCES (mobile w) |}]> (heap w);
       instance := instance w;
       stored := Storage.setJson (writable w)
                   (VObj (DEFAULT_PREFERENCES (mobile w))) (stored w);
       writable := writable w;
       mobile := mobile w |}).
  { unfold w', resetToDefaults, savePreferences, assign. rewrite Hm. simpl.
    by rewrite lookup_insert_eq. }
  rewrite Hw'. split; [|split].
  - unfold getPreferences. simpl. by rewrite lookup_insert_eq.
  - intros k Hk. unfold field. simpl. rewrite lookup_insert_eq. simpl.
    by apply default_unknown.
  - intros Hwr. unfold loadPreferences. simpl. rewrite Hwr. simpl.
    apply default_image.
Qed.

Lemma reset_gives_defaults_witness :
  let w := {| heap := {[ 0 := {| preferences :=
                                   <["legacy" := VBool true]> (DEFAULT_PREFERENCES true) |} ]};
              instance := Some 0; stored := Storage.Absent;
              writable := true; mobile := true |} in
  let w' := resetToDefaults 0 w in
  field 0 "legacy" w = Some (VBool true)
  /\ getPreferences 0 w' = Some (DEFAULT_PREFERENCES true)
  /\ (forall k, k ∉ knownFields -> field 0 k w' = None)
  /\ (true = true -> loadPreferences w' = DEFAULT_PREFERENCES true).
Proof.
  cbv zeta. split; [reflexivity|].
  exact (reset_gives_defaults
           {| heap := {[ 0 := {| preferences :=
                                   <["legacy" := VBool true]> (DEFAULT_PREFERENCES true) |} ]};
              instance := Some 0; stored := Storage.Absent;
              writable := true; mobile := true |}
           0
           {| preferences := <["legacy" := VBool true]> (DEFAULT_PREFERENCES true) |}
           eq_refl).
Defined.

(** *** The known fields are always there *)

Section Complete.

(** Every live manager has a value for each known field. *)
Let complete (w : world) : Prop :=
  forall r m k, heap w !! r = Some m -> k ∈ knownFields ->
                is_Some (preferences m !! k).

Lemma default_known (mobile : bool) (k : string) :
  k ∈ knownFields -> is_Some (DEFAULT_PREFERENCES mobile !! k).
Proof.
  unfold knownFields, DEFAULT_PREFERENCES. rewrite !elem_of_cons, elem_of_nil.
  intros [->|[->|[->|[->|[]]]]]; rewrite ?lookup_insert_eq;
    rewrite ?(lookup_insert_ne _ "maxCols"), ?lookup_insert_eq by done;
    rewrite ?(lookup_insert_ne _ "fontSize"), ?lookup_insert_eq by done;
    rewrite ?(lookup_insert_ne _ "fitHorizontally"), ?lookup_insert_eq by done;
    eauto.
Qed.

Lemma loadPreferences_known (w : world) (k : string) :
  k ∈ knownFields -> is_Some (loadPreferences w !! k).
Proof.
  intros Hk. pose proof (default_known (mobile w) k Hk) as Hd.
  unfold loadPreferences. destruct (stored w); try done.
  rewrite PreferencesFacts.lookup_spread.
  by destruct (spreadProps v !! k).
Qed.

Lemma complete_assign this p w :
  complete w -> (forall k, k ∈ knownFields -> is_Some (p !! k)) ->
  complete (assign this p w).
Proof.
  intros Hc Hp r m k Hr Hk. unfold assign in Hr.
  destruct (heap w !! this) eqn:Ht; [|by eapply Hc].
  simpl in Hr. rewrite lookup_insert in Hr.
  destruct (decide (this = r)) as [->|]; [|by eapply Hc].
  injection Hr as <-. by apply Hp.
Qed.

Lemma complete_assignField this f v w :
  complete w -> complete (assignField this f v w).
Proof.
  intros Hc. unfold assignField. destruct (heap w !! this) as [m|] eqn:Ht; [|done].
  apply complete_assign; [done|]. intros k Hk.
  rewrite lookup_insert. destruct (decide (f = k)); [by eauto|].
  by eapply Hc.
Qed.

Lemma complete_save this w : complete w -> complete (savePreferences this w).
Proof. intros Hc r m k. rewrite heap_savePreferences. apply Hc. Qed.

Lemma complete_perform c w : complete w -> complete (perform c w).
Proof.
  intros Hc. destruct c; simpl.
  - unfold getInstance. destruct (instance w); [done|]. simpl.
    intros r m k Hr Hk. simpl in Hr. rewrite lookup_insert in Hr.
    destruct (decide (fresh (dom (heap w)) = r)); [|by eapply Hc].
    injection Hr as <-. by apply loadPreferences_known.
  - by apply complete_save, complete_assignField.
  - by apply complete_save, complete_assignField.
  - by apply complete_save, complete_assignField.
  - by apply complete_save, complete_assignField.
  - apply complete_save, complete_assign; [done|]. apply default_known.
Qed.

Lemma complete_performAll cs : forall w, complete w -> complete (performAll cs w).
Proof.
  induction cs as [|c cs IH]; intros w Hc; [done|].
  unfold performAll in *. cbn [fold_left]. by apply IH, complete_perform.
Qed.

(** On a page that has no manager yet, whatever the storage holds, the
    manager that [getInstance()] returns has a value for each of the
    four fields of the interface, and keeps one through every call:
    the getters never return undefined. *)
Theorem getters_defined (w : world) (calls : list call) (k : string) :
  heap w = ∅ ->
  instance w = None ->
  k ∈ knownFields ->
  is_Some (field (getInstance w).1 k (performAll calls (getInstance w).2)).
Proof.
  intros Hh Hi Hk.
  assert (Hc : complete w).
  { intros r m k' Hr. by rewrite Hh, lookup_empty in Hr. }
  assert (Hwf : wellFormed w).
  { intros r Hr. congruence. }
  destruct (getInstance_live w Hwf) as [Hi1 Hl1].
  destruct (performAll_keeps calls _ _ Hi1 Hl1) as [_ [m Hm]].
  assert (Hc2 : complete (performAll calls (getInstance w).2)).
  { apply complete_performAll.
    change (getInstance w).2 with (perform GetInstance w).
    by apply complete_perform. }
  unfold field. rewrite Hm. by apply (Hc2 _ _ _ Hm).
Qed.

End Complete.

Lemma getters_defined_witness :
  let w := {| heap := ∅; instance := None;
              stored := Storage.Json (VObj (<["legacy" := VBool true]> ∅));
              writable := false; mobile := false |} in
  let calls := [SetTheme 0 "light"; ResetToDefaults 0] in
  is_Some (field (getInstance w).1 "fontSize" (performAll calls (getInstance w).2)).
Proof.
  cbv zeta. apply getters_defined.
  - reflexivity.
  - reflexivity.
  - unfold knownFields. apply list_elem_of_further, list_elem_of_here.
Defined.

End TerminalPreferencesMore.

(** ** The actions of the settings component *)

Module SettingsActionsFacts.
Import JsValue Settings SettingsActions.

Lemma pref_insert (c : component) (k : string) (b : bool) :
  pref (setNotificationPreferences (<[k := b]> (notificationPreferences c)) c) k = b.
Proof. unfold pref. simpl. by rewrite lookup_insert_eq. Qed.

(** What [setEnabled] leaves of the page. *)
Lemma setEnabled_spec (a : answers) (b : bool) (ev : event) (p : page) :
  let r := setEnabled a b ev p in
  pref (comp r.1) "enabled" = b
  /\ (forall k, k <> "enabled" ->
        notificationPreferences (comp r.1) !! k
        = notificationPreferences (comp p) !! k)
  /\ isLoading (comp r.1) = isLoading (comp p)
  /\ last (savedPreferences (env r.1)) = Some (notificationPreferences (comp r.1))
  /\ windowEvents r.1 = windowEvents p
  /\ appPreferences (comp r.1) = appPreferences (comp p)
  /\ (if r.2 then dispatched r.1 = dispatched p
      else dispatched r.1 = dispatched p ++ [ev]).
Proof.
  unfold setEnabled. cbv zeta.
  destruct (savePreferencesThrows a); simpl;
    rewrite last_snoc; repeat split; try done;
    try (unfold pref; simpl; by rewrite lookup_insert_eq);
    intros k Hk; by rewrite lookup_insert_ne.
Qed.

(** A call of [handleToggleNotifications] made while another is in
    progress does nothing.  Otherwise, whatever the service does:
    [isLoading] is false again afterwards; no preference other than
    [enabled] changes; notifications end up enabled exactly when they
    were enabled and the service failed to unsubscribe, or were
    disabled and the permission was granted and a subscription
    obtained; changed preferences are the last ones handed to the
    service; a call that returns dispatches one event and a call that
    throws none. *)
Theorem toggle_notifications (a : answers) (p : page) :
  let r := handleToggleNotifications a p in
  if isLoading (comp p) then r = (p, false)
  else
    isLoading (comp r.1) = false
    /\ (forall k, k <> "enabled" ->
          notificationPreferences (comp r.1) !! k
          = notificationPreferences (comp p) !! k)
    /\ pref (comp r.1) "enabled" =
         (if pref (comp p) "enabled" then unsubscribeThrows a
          else match requestPermissionAnswer a, subscribeAnswer a with
               | Some Granted, Some true => true
               | _, _ => false
               end)
    /\ (notificationPreferences (comp r.1) = notificationPreferences (comp p)
        \/ last (savedPreferences (env r.1))
           = Some (notificationPreferences (comp r.1)))
    /\ appPreferences (comp r.1) = appPreferences (comp p)
    /\ windowEvents r.1 = windowEvents p
    /\ (if r.2 then dispatched r.1 = dispatched p
        else exists ev, dispatched r.1 = dispatched p ++ [ev]).
Proof.
  cbv zeta. unfold handleToggleNotifications.
  destruct (isLoading (comp p)) eqn:Hl; [done|].
  set (p0 := withComp (setIsLoading true (comp p)) p).
  assert (Hp0 : pref (comp p0) "enabled" = pref (comp p) "enabled") by done.
  unfold toggleBody. rewrite Hp0.
  destruct (pref (comp p) "enabled") eqn:He.
  - destruct (unsubscribeThrows a); [simpl; by repeat split; auto|].
    pose proof (setEnabled_spec a false NotificationsDisabled p0)
      as (H1 & H2 & H3 & H4 & H5 & H6 & H7).
    destruct (setEnabled a false NotificationsDisabled p0) as [p1 threw].
    simpl in *. repeat split; auto.
    destruct threw; eauto.
  - destruct (requestPermissionAnswer a) as [[| |]|];
      try (simpl; by repeat split; eauto).
    destruct (subscribeAnswer a) as [[|]|];
      try (simpl; by repeat split; eauto).
    pose proof (setEnabled_spec a true NotificationsEnabled p0)
      as (H1 & H2 & H3 & H4 & H5 & H6 & H7).
    destruct (setEnabled a true NotificationsEnabled p0) as [p1 threw].
    simpl in *. repeat split; auto.
    destruct threw; eauto.
Qed.

Lemma jsonImage_toValue (v : setting) : jsonImage (toValue v) = toValue v.
Proof. by destruct v. Qed.

(** [handleAppPreferenceChange] sets the given key and no other.  With
    a storage that can be written, the new value is the one a later
    [loadAppPreferences] reads for that key, and the new preferences
    are the last ones announced on [window]; with a storage that
    cannot be written, the stored preferences stay as they are and
    nothing is announced. *)
Theorem app_preference_change (key : string) (v : setting) (p : page)
    (c0 : component) :
  let p' := handleAppPreferenceChange key v p in
  appPreferences (comp p') !! key = Some (toValue v)
  /\ (forall k, k <> key ->
        appPreferences (comp p') !! k = appPreferences (comp p) !! k)
  /\ (if writable (env p) then
        appPreferences (loadAppPreferences (env p') c0) !! key = Some (toValue v)
        /\ last (windowEvents p') = Some (appPreferences (comp p'))
      else
        stored (env p') = stored (env p)
        /\ windowEvents p' = windowEvents p).
Proof.
  cbv zeta. unfold handleAppPreferenceChange, saveAppPreferences, spreadSet.
  simpl. split; [by rewrite lookup_insert_eq|].
  split; [intros k Hk; by rewrite lookup_insert_ne|].
  unfold Settings.saveAppPreferences, loadAppPreferences. simpl.
  destruct (writable (env p)); simpl; [|done].
  split; [|by rewrite last_snoc].
  rewrite PreferencesFacts.lookup_spread, lookup_fmap, lookup_insert_eq. simpl.
  by rewrite jsonImage_toValue.
Qed.

End SettingsActionsFacts.

(** ** Sequences of calls of the session service *)

Module SessionCallsFacts.
Import SessionService SessionCalls SessionServiceFacts.

Section Calls.
Context {E S Session SessionCreateData : Type}.
Variable apiClient : APIClient E S Session SessionCreateData.
Variable describe : E -> string.

Lemma serve_spec (r : request SessionCreateData) (w : world S) :
  server (serve apiClient describe r w) = direct apiClient r (server w)
  /\ errors (serve apiClient describe r w)
     = errors w ++ logged apiClient describe r (server w).
Proof.
  destruct r; simpl;
    try (unfold getSessions, killSession, cleanupSession,
           cleanupAllExitedSessions, killAllSessions, sendInput, resizeTerminal;
         rewrite forward_spec; simpl; by rewrite app_nil_r).
  unfold createSession.
  destruct (api_createSession apiClient data (server w)) as [[error|sid] s]; simpl;
    [done|by rewrite app_nil_r].
Qed.

(** Through any sequence of calls, the service leaves the server as the
    same calls made on the API client leave it, and the log grows by
    one line for each session creation the client refuses, in order,
    and by nothing else. *)
Theorem service_transparent (rs : list (request SessionCreateData)) (w : world S) :
  server (serveAll apiClient describe rs w) = directAll apiClient rs (server w)
  /\ errors (serveAll apiClient describe rs w)
     = errors w ++ loggedAll apiClient describe rs (server w).
Proof.
  revert w. induction rs as [|r rs IH]; intros w.
  - simpl. by rewrite app_nil_r.
  - unfold serveAll, directAll in *. cbn [fold_left loggedAll].
    destruct (serve_spec r w) as [Hs He].
    destruct (IH (serve apiClient describe r w)) as [IH1 IH2].
    rewrite IH1, IH2, Hs, He. by rewrite <- app_assoc.
Qed.

End Calls.

End SessionCallsFacts.
